(** * A shallow embedding of the directory monitor (monitorFS/filewatcher-v8.go)

    The development models the allowlist loader, the event classifier, the
    policy enforcer and the dispatcher loop of [filewatcher-v8.go], plus the
    event printer of the older [filewatcher-v2.go], and proves or refutes the
    behavioural statements made about them.

    Go strings are byte sequences; they are modelled by [string] (a list of
    8-bit [ascii] values).  The operating system, the fsnotify watcher, the
    logger and the desktop notifier are modelled by an explicit world that
    the program threads through its calls. *)

From Stdlib Require Import ZArith NArith Ascii.
From stdpp Require Import base option list gmap sets strings.

Local Open Scope Z_scope.

(** ** Go standard-library string functions used by the program *)

Module GoStrings.

(** [unicode.ToLower] on one byte.  Only the ASCII letters are folded;
    bytes above 0x7f are kept (the Go function also folds the letters of
    multi-byte runes, which this byte-level model does not cover). *)
Definition lower_byte (c : ascii) : ascii :=
  let n := N_of_ascii c in
  if ((65 <=? n) && (n <=? 90))%N then ascii_of_N (n + 32) else c.

(** [strings.ToLower]. *)
Fixpoint ToLower (s : string) : string :=
  match s with
  | EmptyString => EmptyString
  | String c r => String (lower_byte c) (ToLower r)
  end.

(** The ASCII white space of [unicode.IsSpace]: tab, line feed, vertical
    tab, form feed, carriage return and space. *)
Definition is_space (c : ascii) : bool :=
  let n := N_of_ascii c in
  (((9 <=? n) && (n <=? 13)) || (n =? 32))%N.

Fixpoint TrimLeft (s : string) : string :=
  match s with
  | EmptyString => EmptyString
  | String c r => if is_space c then TrimLeft r else s
  end.

Fixpoint TrimRight (s : string) : string :=
  match s with
  | EmptyString => EmptyString
  | String c r =>
      match TrimRight r with
      | EmptyString => if is_space c then EmptyString else String c EmptyString
      | r' => String c r'
      end
  end.

(** [strings.TrimSpace]: drops leading and trailing white space. *)
Definition TrimSpace (s : string) : string := TrimRight (TrimLeft s).

(** [os.IsPathSeparator] on a Unix system. *)
Definition IsPathSeparator (c : ascii) : bool := (N_of_ascii c =? 47)%N.

Definition is_dot (c : ascii) : bool := (N_of_ascii c =? 46)%N.

(** The loop of [filepath.Ext]:
    [for i := len(path)-1; i >= 0 && !IsPathSeparator(path[i]); i--]
    returning [path[i:]] at the first dot met.  The argument [i] is the
    number of bytes still to inspect, so the byte looked at has index
    [i-1]. *)
Fixpoint Ext_loop (path : string) (i : nat) : string :=
  match i with
  | O => EmptyString
  | S j =>
      match String.get j path with
      | Some c =>
          if IsPathSeparator c then EmptyString
          else if is_dot c
               then String.substring j (String.length path - j) path
               else Ext_loop path j
      | None => EmptyString
      end
  end.

Definition Ext (path : string) : string := Ext_loop path (String.length path).

(** [strings.Split(s, sep)] for a one-byte separator. *)
Fixpoint Split_from (sep : ascii) (s cur : string) : list string :=
  match s with
  | EmptyString => [cur]
  | String c r =>
      if Ascii.eqb c sep then cur :: Split_from sep r EmptyString
      else Split_from sep r (cur +:+ String c EmptyString)
  end.

Definition Split (s : string) (sep : ascii) : list string :=
  Split_from sep s EmptyString.

(** [bufio.ScanLines] drops one trailing carriage return of a line. *)
Fixpoint dropCR (s : string) : string :=
  match s with
  | EmptyString => EmptyString
  | String c EmptyString => if (N_of_ascii c =? 13)%N then EmptyString else s
  | String c r => String c (dropCR r)
  end.

(** The raw lines [bufio.ScanLines] cuts a file content into, the
    terminating line feed removed and a last unterminated line kept when
    it is not empty. *)
Fixpoint raw_lines (s cur : string) : list string :=
  match s with
  | EmptyString => match cur with EmptyString => [] | _ => [cur] end
  | String c r =>
      if (N_of_ascii c =? 10)%N then cur :: raw_lines r EmptyString
      else raw_lines r (cur +:+ String c EmptyString)
  end.

(** [bufio.MaxScanTokenSize]: a line that does not fit the scanner's
    buffer stops the scan with [bufio.ErrTooLong]. *)
Definition MaxScanTokenSize : N := 65536.

Definition too_long (line : string) : bool :=
  (MaxScanTokenSize <=? N.of_nat (String.length line))%N.

End GoStrings.

Import GoStrings.

(** ** Go errors *)

(** The [syscall.Errno] values the model distinguishes. *)
Inductive Errno := ENOENT | EACCES | EPERM | ENOTEMPTY | EBUSY | EROFS | EIO | ENOSPC.

#[global] Instance Errno_eq_dec : EqDecision Errno.
Proof. solve_decision. Defined.

Definition strerror (e : Errno) : string :=
  match e with
  | ENOENT => "no such file or directory"
  | EACCES => "permission denied"
  | EPERM => "operation not permitted"
  | ENOTEMPTY => "directory not empty"
  | EBUSY => "device or resource busy"
  | EROFS => "read-only file system"
  | EIO => "input/output error"
  | ENOSPC => "no space left on device"
  end.

(** Error values: a bare errno, an [*fs.PathError], an error wrapped by
    [fmt.Errorf(prefix + "%w", err)], and a plain [errors.New] message. *)
Inductive error :=
| SyscallErrno (e : Errno)
| PathError (op path : string) (err : error)
| Errorf_w (prefix : string) (err : error)
| ErrorString (msg : string).

(** The [Error()] method. *)
Fixpoint Error (err : error) : string :=
  match err with
  | SyscallErrno e => strerror e
  | PathError op path inner => op +:+ " " +:+ path +:+ ": " +:+ Error inner
  | Errorf_w prefix inner => prefix +:+ Error inner
  | ErrorString msg => msg
  end.

(** [errors.Is(err, target)] for an errno target: follows the [Unwrap]
    chain. *)
Fixpoint errors_Is (err : error) (target : Errno) : bool :=
  match err with
  | SyscallErrno e => bool_decide (e = target)
  | PathError _ _ inner => errors_Is inner target
  | Errorf_w _ inner => errors_Is inner target
  | ErrorString _ => false
  end.

Inductive result (A : Type) :=
| Ok (a : A)
| Err (err : error).
Arguments Ok {A} a.
Arguments Err {A} err.

(** ** The world the program runs in *)

Inductive FileMode := RegularFile | Directory.

#[global] Instance FileMode_eq_dec : EqDecision FileMode.
Proof. solve_decision. Defined.

Inductive Level := InfoLevel | WarnLevel | ErrorLevel | FatalLevel.

#[global] Instance Level_eq_dec : EqDecision Level.
Proof. solve_decision. Defined.

(** What the program does to the outside, in the order it does it. *)
Inductive Effect :=
| Logged (lvl : Level) (msg : string)      (* a logrus call *)
| Printed (line : string)                  (* fmt.Println on the console *)
| Removed (path : string)                  (* an os.Remove that succeeded *)
| Notified (title body : string)           (* a beeep.Notify call *)
| WatchAdded (path : string).              (* a watcher.Add that succeeded *)

(** - [fs]: the entries of the file system and their kind;
    - [remove_fault]: paths whose removal the kernel refuses, with the errno;
    - [add_fault]: paths the watcher cannot register (directory gone, watch
      limit reached, no permission), with the errno;
    - [notify_fault]: the error of the notification channel when it is down;
    - [watched]: the directories registered with the fsnotify watcher;
    - [trace]: the effects so far, oldest first. *)
Record World := mkWorld {
  fs : gmap string FileMode;
  remove_fault : gmap string Errno;
  add_fault : gmap string Errno;
  notify_fault : option error;
  watched : gset string;
  trace : list Effect
}.

Definition emit (e : Effect) (w : World) : World :=
  mkWorld (fs w) (remove_fault w) (add_fault w) (notify_fault w) (watched w)
          (trace w ++ [e]).

Definition set_fs (m : gmap string FileMode) (w : World) : World :=
  mkWorld m (remove_fault w) (add_fault w) (notify_fault w) (watched w) (trace w).

Definition set_watched (s : gset string) (w : World) : World :=
  mkWorld (fs w) (remove_fault w) (add_fault w) (notify_fault w) s (trace w).

Definition Infof (msg : string) : World → World := emit (Logged InfoLevel msg).
Definition Warnf (msg : string) : World → World := emit (Logged WarnLevel msg).
Definition Errorf (msg : string) : World → World := emit (Logged ErrorLevel msg).
Definition Fatalf (msg : string) : World → World := emit (Logged FatalLevel msg).

(** A directory that still has entries below it cannot be removed. *)
Definition has_entries (m : gmap string FileMode) (dir : string) : bool :=
  existsb (λ kv, String.prefix (dir +:+ "/") kv.1) (map_to_list m).

(** [os.Remove]: unlinks a file or removes an empty directory. *)
Definition os_Remove (name : string) (w : World) : option error * World :=
  match remove_fault w !! name with
  | Some e => (Some (PathError "remove" name (SyscallErrno e)), w)
  | None =>
      match fs w !! name with
      | None => (Some (PathError "remove" name (SyscallErrno ENOENT)), w)
      | Some RegularFile => (None, emit (Removed name) (set_fs (delete name (fs w)) w))
      | Some Directory =>
          if has_entries (fs w) name
          then (Some (PathError "remove" name (SyscallErrno ENOTEMPTY)), w)
          else (None, emit (Removed name) (set_fs (delete name (fs w)) w))
      end
  end.

(** [os.Stat]: the kind of the entry, or nothing when the call fails. *)
Definition os_Stat (name : string) (w : World) : option FileMode := fs w !! name.

(** [watcher.Add] of fsnotify: registering a path twice is harmless. *)
Definition watcher_Add (name : string) (w : World) : option error * World :=
  match add_fault w !! name with
  | Some e => (Some (SyscallErrno e), w)
  | None => (None, emit (WatchAdded name) (set_watched ({[name]} ∪ watched w) w))
  end.

(** [beeep.Notify]: the call is made, delivery may fail. *)
Definition beeep_Notify (title body : string) (w : World) : option error * World :=
  (notify_fault w, emit (Notified title body) w).

(** ** fsnotify events *)

(** [fsnotify.Op] is a bit mask held in a 32-bit unsigned integer. *)
Definition Create : Z := Z.shiftl 1 0.
Definition Write : Z := Z.shiftl 1 1.
Definition Remove : Z := Z.shiftl 1 2.
Definition Rename : Z := Z.shiftl 1 3.
Definition Chmod : Z := Z.shiftl 1 4.

(** [fsnotify.Event]: the path and the operations; there is no field for a
    previous path. *)
Record Event := mkEvent { Name : string; Op : Z }.

(** The test [op & flag == flag] the program writes everywhere. *)
Definition Has (op flag : Z) : bool := Z.land op flag =? flag.

(** [Op.String()] of fsnotify. *)
Definition Op_String (op : Z) : string :=
  let b := (if Has op Create then "|CREATE" else "")
           +:+ (if Has op Remove then "|REMOVE" else "")
           +:+ (if Has op Write then "|WRITE" else "")
           +:+ (if Has op Rename then "|RENAME" else "")
           +:+ (if Has op Chmod then "|CHMOD" else "") in
  match b with
  | EmptyString => "[no events]"
  | String _ r => r
  end.

(** ** filewatcher-v8.go *)

(** [type AllowedExtensions map[string]struct{}]: a set of strings. *)
Abbreviation AllowedExtensions := (gset string).

(** The body of the scanner loop of [loadAllowedExtensions] for one line. *)
Definition load_line (allowedExtensions : AllowedExtensions) (text : string)
  : AllowedExtensions :=
  let ext := TrimSpace text in
  if bool_decide (ext ≠ "") then {[ext]} ∪ allowedExtensions else allowedExtensions.

(** [loadAllowedExtensions]; the argument is the content of the file, or the
    error of [os.Open].  The scanner hands over the lines up to the first
    one that is too long for its buffer, and reports that one through
    [scanner.Err()]. *)
Definition loadAllowedExtensions (file : result string) : result AllowedExtensions :=
  match file with
  | Err err => Err (Errorf_w "could not open allowed extensions file: " err)
  | Ok content =>
      let lines := raw_lines content "" in
      if existsb too_long lines
      then Err (Errorf_w "error reading allowed extensions file: "
                         (ErrorString "bufio.Scanner: token too long"))
      else Ok (foldl load_line ∅ (dropCR <$> lines))
  end.

(** [isAllowedExtension]. *)
Definition isAllowedExtension (fileName : string) (allowedExtensions : AllowedExtensions)
  : bool :=
  let ext := ToLower (Ext fileName) in
  bool_decide (ext ∈ allowedExtensions).

(** [containsEvent]: the tokens are tried in order; a token that names a
    kind the event does not carry, or no kind at all, is passed over. *)
Fixpoint containsEvent (events : list string) (event : Event) : bool :=
  match events with
  | [] => false
  | e :: rest =>
      let s := ToLower e in
      if String.eqb s "create" then
        if Has (Op event) Create then true else containsEvent rest event
      else if String.eqb s "write" then
        if Has (Op event) Write then true else containsEvent rest event
      else if String.eqb s "remove" then
        if Has (Op event) Remove then true else containsEvent rest event
      else if String.eqb s "rename" then
        if Has (Op event) Rename then true else containsEvent rest event
      else if String.eqb s "chmod" then
        if Has (Op event) Chmod then true else containsEvent rest event
      else containsEvent rest event
  end.

(** [handleDisallowedFile]. *)
Definition handleDisallowedFile (fileName : string) (w : World) : option error * World :=
  match os_Remove fileName w with
  | (Some err, w1) =>
      if errors_Is err ENOENT then (None, w1)
      else (Some (Errorf_w "could not remove disallowed file: " err), w1)
  | (None, w1) =>
      match beeep_Notify "Disallowed File Alert"
              ("A file with disallowed extension was created and removed: " +:+ fileName)
              w1 with
      | (Some err, w2) => (Some (Errorf_w "failed to send notification: " err), w2)
      | (None, w2) => (None, w2)
      end
  end.

(** First half of the event case of [processEvents]: the block guarded by
    [containsEvent]. *)
Definition logAndEnforce (events : list string) (allowedExtensions : AllowedExtensions)
    (event : Event) (w : World) : World :=
  if containsEvent events event then
    let w1 := Infof ("Event: " +:+ Op_String (Op event) +:+ " on file: " +:+ Name event) w in
    if Has (Op event) Create then
      if negb (isAllowedExtension (Name event) allowedExtensions) then
        let w2 := Warnf ("Disallowed file extension: " +:+ Name event) w1 in
        match handleDisallowedFile (Name event) w2 with
        | (Some err, w3) => Errorf ("Failed to handle disallowed file: " +:+ Error err) w3
        | (None, w3) => w3
        end
      else w1
    else w1
  else w.

(** Second half: "Add new directories to the watcher". *)
Definition addNewDirectory (event : Event) (w : World) : World :=
  if Has (Op event) Create then
    match os_Stat (Name event) w with
    | Some Directory =>
        match watcher_Add (Name event) w with
        | (Some err, w1) =>
            Errorf ("Failed to add new directory to watcher: " +:+ Error err) w1
        | (None, w1) => w1
        end
    | _ => w
    end
  else w.

Definition handleEvent (events : list string) (allowedExtensions : AllowedExtensions)
    (event : Event) (w : World) : World :=
  addNewDirectory event (logAndEnforce events allowedExtensions event w).

(** What one iteration of the [select] of [processEvents] can receive.
    [Outside] is not a receive: it stands for what happens between two
    receives without the dispatcher: other processes change the file system
    and the fault conditions, and the reader of the fsnotify watcher takes
    note of it. *)
Inductive Recv :=
| FromEvents (event : Event)
| EventsClosed
| FromErrors (err : error)
| ErrorsClosed
| Outside (fs' : gmap string FileMode) (remove_fault' add_fault' : gmap string Errno)
          (notify_fault' : option error).

(** The world after an outside change.  The program holds no watch set of
    its own: the set is the watcher's, and the watcher drops the watch of a
    path that is deleted or renamed away, so only the watched paths that
    still exist are kept. *)
Definition outside (fs' : gmap string FileMode) (rf af : gmap string Errno)
    (nf : option error) (w : World) : World :=
  mkWorld fs' rf af nf (filter (λ p, is_Some (fs' !! p)) (watched w)) (trace w).

(** How the goroutine stands after a feed: still in the [select], or
    returned because a channel was closed. *)
Inductive LoopState := Waiting | Returned.

(** [processEvents] run over the items the two channels deliver. *)
Fixpoint processEvents (events : list string) (allowedExtensions : AllowedExtensions)
    (feed : list Recv) (w : World) : LoopState * World :=
  match feed with
  | [] => (Waiting, w)
  | FromEvents event :: rest =>
      processEvents events allowedExtensions rest
        (handleEvent events allowedExtensions event w)
  | EventsClosed :: _ => (Returned, w)
  | FromErrors err :: rest =>
      processEvents events allowedExtensions rest
        (Errorf ("Watcher error: " +:+ Error err) w)
  | ErrorsClosed :: _ => (Returned, w)
  | Outside fs' rf af nf :: rest =>
      processEvents events allowedExtensions rest (outside fs' rf af nf w)
  end.

(** ** The initial walk *)

#[local] Set Warnings "-register-all".

(** The directory tree as [os.Lstat] and the directory reads of
    [filepath.Walk] show it: a file, an entry whose [Lstat] fails, or a
    directory with the error of reading it (if any) and its entries in
    lexical order. *)
Inductive FsTree :=
| File (name : string)
| Broken (name : string) (err : error)
| Dir (name : string) (readErr : option error) (entries : list FsTree).

Definition entry_name (t : FsTree) : string :=
  match t with
  | File n => n
  | Broken n _ => n
  | Dir n _ _ => n
  end.

(** [filepath.Join] of a clean directory path and an entry name. *)
Definition Join (dir name : string) : string := dir +:+ "/" +:+ name.

(** The function literal handed to [filepath.Walk] by [addWatchRecursive];
    [info] is [None] when the walk has no [FileInfo] to give. *)
Definition walkFn (path : string) (info : option FileMode) (err : option error)
    (w : World) : option error * World :=
  match err with
  | Some e => (Some e, w)
  | None =>
      match info with
      | Some Directory =>
          match watcher_Add path w with
          | (Some e, w1) => (Some (Errorf_w "could not add directory to watcher: " e), w1)
          | (None, w1) => (None, w1)
          end
      | _ => (None, w)
      end
  end.

(** The loop [for _, name := range names] of [filepath.Walk]'s recursion,
    over the function [visit] that walks one entry: the first error stops
    it. *)
Definition walk_entries (visit : string → FsTree → World → option error * World)
    (path : string) : list FsTree → World → option error * World :=
  fix loop (ts : list FsTree) (w : World) : option error * World :=
    match ts with
    | [] => (None, w)
    | t :: rest =>
        match visit (Join path (entry_name t)) t w with
        | (Some e, w') => (Some e, w')
        | (None, w') => loop rest w'
        end
    end.

(** [filepath.Walk]'s recursion for this callback, which never asks to skip
    a directory: the callback sees an entry whose [Lstat] fails or a
    directory that cannot be read with that error, and the first error
    returned stops the walk. *)
Fixpoint walk (path : string) (t : FsTree) (w : World) {struct t} : option error * World :=
  match t with
  | File _ => walkFn path (Some RegularFile) None w
  | Broken _ err => walkFn path None (Some err) w
  | Dir _ readErr entries =>
      match walkFn path (Some Directory) readErr w with
      | (Some e, w1) => (Some e, w1)
      | (None, w1) => walk_entries walk path entries w1
      end
  end.

(** [addWatchRecursive]: [root] is what the walk finds at [dir]. *)
Definition addWatchRecursive (dir : string) (root : FsTree) (w : World)
  : option error * World :=
  walk dir root w.

(** The paths of the directories of a tree, in the order the walk meets
    them. *)
Fixpoint dir_paths (path : string) (t : FsTree) : list string :=
  match t with
  | File _ | Broken _ _ => []
  | Dir _ _ entries =>
      path :: flat_map (λ t', dir_paths (Join path (entry_name t')) t') entries
  end.

(** ** Start-up *)

(** What [main] finds when it starts: the error of opening (and, if need
    be, creating) the log file, if any, the allowlist file, the result of
    [fsnotify.NewWatcher] and the tree below the target directory. *)
Record Boot := mkBoot {
  log_file_fault : option error;
  allowlist_file : string → result string;
  new_watcher_fault : option error;
  target_tree : string → FsTree
}.

(** [main] either leaves the process with an exit code, or reaches
    [select {}] with the dispatcher goroutine started. *)
Inductive Outcome :=
| Exited (code : Z) (w : World)
| Monitoring (events : list string) (allowedExtensions : AllowedExtensions) (w : World).

Definition usage : list string :=
  ["Usage: go run filewatcher-v8.go <directory> <log file> <events> <allowed extensions file>";
   "OR";
   "Usage: go build -o birdeye.exe filewatcher-v8.go ";
   "birdeye.exe <directory> <log file> <events> <allowed extensions file>"].

(** [os.OpenFile(name, os.O_APPEND|os.O_CREATE|os.O_WRONLY, 0666)] when it
    succeeds: the file is created unless the path exists already. *)
Definition os_OpenFile_create (name : string) (w : World) : World :=
  match fs w !! name with
  | Some _ => w
  | None => set_fs (<[ name := RegularFile ]> (fs w)) w
  end.

(** [main]; [args] is [os.Args].  [logrus.Fatalf] logs and calls
    [os.Exit(1)].  The dispatcher goroutine is started just before the line
    "Starting to monitor" is logged; the model logs the line first and hands
    the world over to [processEvents]. *)
Definition main (args : list string) (boot : Boot) (w : World) : Outcome :=
  match args with
  | [_; directory; logFilePath; eventsArg; allowedExtFilePath] =>
      let events := Split eventsArg "," in
      let w0 :=
        match log_file_fault boot with
        | Some err =>
            emit (Printed ("Could not open log file, logging to console instead: "
                           +:+ Error err)) w
        | None => os_OpenFile_create logFilePath w
        end in
      match loadAllowedExtensions (allowlist_file boot allowedExtFilePath) with
      | Err err => Exited 1 (Fatalf ("Failed to load allowed extensions: " +:+ Error err) w0)
      | Ok allowedExtensions =>
          match new_watcher_fault boot with
          | Some err => Exited 1 (Fatalf ("Failed to create file watcher: " +:+ Error err) w0)
          | None =>
              match addWatchRecursive directory (target_tree boot directory) w0 with
              | (Some err, w1) =>
                  Exited 1 (Fatalf ("Failed to add directory to watcher: " +:+ Error err) w1)
              | (None, w1) =>
                  Monitoring events allowedExtensions
                    (Infof ("Starting to monitor directory: " +:+ directory) w1)
              end
          end
      end
  | _ => Exited 1 (foldl (λ w line, emit (Printed line) w) w usage)
  end.

(** ** filewatcher-v2.go *)

Module V2.

(** [watcher.Op] of radovskyb/watcher is an enumeration. *)
Inductive Op := Create | Write | Remove | Rename | Chmod | Move.

(** [watcher.Event]: it carries the previous path of a rename or move. *)
Record Event := mkEvent { op : Op; Path : string; OldPath : string; IsDir : bool }.

(** [fmt.Println] separates its operands by one space. *)
Definition Println (operands : list string) : string :=
  match operands with
  | [] => ""
  | x :: rest => foldl (λ acc y, acc +:+ " " +:+ y) x rest
  end.

(** The line the [switch event.Op] of [main] prints first for an event. *)
Definition event_line (event : Event) : option string :=
  match op event with
  | Create => Some (Println ["File created:"; Path event])
  | Remove => Some (Println ["File removed:"; Path event])
  | Rename => Some (Println ["File renamed:"; OldPath event; "to"; Path event])
  | Move => Some (Println ["File moved:"; OldPath event; "to"; Path event])
  | Write => Some (Println ["File modified:"; Path event])
  | Chmod => None
  end.

End V2.

(** ** Vocabulary of the statements *)

(** The operation kinds a filter token can name, their token and their
    bit. *)
Inductive Kind := KCreate | KWrite | KRemove | KRename | KChmod.

Definition kind_name (k : Kind) : string :=
  match k with
  | KCreate => "create"
  | KWrite => "write"
  | KRemove => "remove"
  | KRename => "rename"
  | KChmod => "chmod"
  end.

Definition kind_mask (k : Kind) : Z :=
  match k with
  | KCreate => Create
  | KWrite => Write
  | KRemove => Remove
  | KRename => Rename
  | KChmod => Chmod
  end.

(** A list of tokens configures a kind when one of them spells its name,
    letter case aside. *)
Definition configured (events : list string) (k : Kind) : Prop :=
  ∃ e, e ∈ events ∧ ToLower e = kind_name k.

(** The paths removed, the notifications issued and the messages logged at
    one level along a trace. *)
Definition removals (t : list Effect) : list string :=
  omap (λ e, match e with Removed p => Some p | _ => None end) t.

Definition notifications (t : list Effect) : list (string * string) :=
  omap (λ e, match e with Notified title body => Some (title, body) | _ => None end) t.

Definition logs_at (lvl : Level) (t : list Effect) : list string :=
  omap (λ e, match e with
             | Logged l msg => if bool_decide (l = lvl) then Some msg else None
             | _ => None
             end) t.

(** [contains needle s]: [needle] occurs in [s] (as [strings.Contains]). *)
Fixpoint contains (needle s : string) : bool :=
  String.prefix needle s
  || match s with
     | EmptyString => false
     | String _ r => contains needle r
     end.

(** The worlds used by the examples: a watched directory [/w] holding a
    file with a foreign extension, a file without extension, a text file
    and an empty sub-directory. *)
Definition demo_fs : gmap string FileMode :=
  {[ "/w" := Directory; "/w/payload.exe" := RegularFile; "/w/README" := RegularFile;
     "/w/a.txt" := RegularFile; "/w/data" := Directory ]}.

Definition demo : World := mkWorld demo_fs ∅ ∅ None {["/w"]} [].

(** The same, with the kernel refusing to unlink [/w/payload.exe] and
    [/w/README]. *)
Definition demo_locked : World :=
  mkWorld demo_fs {[ "/w/payload.exe" := EACCES; "/w/README" := EPERM ]} ∅ None
          {["/w"]} [].

(** The same, after another process has deleted [/w/payload.exe]. *)
Definition demo_gone : World :=
  mkWorld (delete "/w/payload.exe" demo_fs) ∅ ∅ None {["/w"]} [].

(** The same, with the watch limit reached for [/w/data]. *)
Definition demo_full : World :=
  mkWorld demo_fs ∅ {[ "/w/data" := ENOSPC ]} None {["/w"]} [].

Definition demo_tree : FsTree :=
  Dir "w" None [File "README"; Dir "data" None [File "x.bin"]; File "payload.exe"].

Definition demo_boot : Boot :=
  mkBoot None (λ _, Ok (".txt" +:+ String "010" ".md")) None (λ _, demo_tree).

(** ** The index-pair search (second program of filewatcher-v8.go) *)

(** Go's [int] on a 64-bit platform: arithmetic wraps around. *)
Definition wrap64 (z : Z) : Z := (z + 2 ^ 63) `mod` 2 ^ 64 - 2 ^ 63.

Definition is_int (z : Z) : Prop := - 2 ^ 63 ≤ z < 2 ^ 63.

(** The [for i, num := range nums] loop of [twoSum]: [i] is the index of
    the head of [nums], [numMap] the map built so far. *)
Fixpoint twoSum_loop (nums : list Z) (i : nat) (target : Z) (numMap : gmap Z nat)
  : list nat :=
  match nums with
  | [] => []
  | num :: rest =>
      let complement := wrap64 (target - num) in
      match numMap !! complement with
      | Some index => [index; i]
      | None => twoSum_loop rest (S i) target (<[num := i]> numMap)
      end
  end.

(** [twoSum]. *)
Definition twoSum (nums : list Z) (target : Z) : list nat :=
  twoSum_loop nums 0 target ∅.

(** ** The rest of filewatcher-v2.go *)

Module V2Main.

(** What the program writes: [fmt] output on the console and lines of the
    standard [log] package. *)
Inductive Output :=
| Stdout (line : string)
| StdLog (line : string).

(** The polling watcher and the console: the paths the watcher cannot list
    (with the errno), the directories added recursively, the output so
    far. *)
Record State := mkState {
  add_fault : gmap string Errno;
  watched : gset string;
  out : list Output
}.

Definition say (o : Output) (s : State) : State :=
  mkState (add_fault s) (watched s) (out s ++ [o]).

(** [w.AddRecursive] of radovskyb/watcher. *)
Definition AddRecursive (name : string) (s : State) : option error * State :=
  match add_fault s !! name with
  | Some e => (Some (PathError "lstat" name (SyscallErrno e)), s)
  | None => (None, mkState (add_fault s) ({[name]} ∪ watched s) (out s))
  end.

(** [watchDirectory]. *)
Definition watchDirectory (dir : string) (s : State) : option error * State :=
  AddRecursive dir (say (Stdout ("Watching directory: " +:+ dir)) s).

(** The [switch event.Op] of the goroutine of [main]. *)
Definition handle (event : V2.Event) (s : State) : State :=
  match V2.op event with
  | V2.Create =>
      let s1 := say (Stdout (V2.Println ["File created:"; V2.Path event])) s in
      if V2.IsDir event then
        match watchDirectory (V2.Path event) s1 with
        | (Some err, s2) => say (StdLog ("Error watching new directory: " +:+ Error err)) s2
        | (None, s2) => s2
        end
      else s1
  | V2.Remove => say (Stdout (V2.Println ["File removed:"; V2.Path event])) s
  | V2.Rename =>
      say (Stdout (V2.Println ["File renamed:"; V2.OldPath event; "to"; V2.Path event])) s
  | V2.Move =>
      say (Stdout (V2.Println ["File moved:"; V2.OldPath event; "to"; V2.Path event])) s
  | V2.Write => say (Stdout (V2.Println ["File modified:"; V2.Path event])) s
  | V2.Chmod => s
  end.

(** What the [select] of the goroutine can receive.  [Polled] is not a
    receive: it stands for a polling cycle of the watcher between two
    receives, in which the watcher drops the watched paths that have
    disappeared ([gone]). *)
Inductive Recv :=
| FromEvent (event : V2.Event)
| FromError (err : error)
| FromClosed
| Polled (gone : gset string).

(** The goroutine of [main] over the items its channels deliver; the
    boolean tells whether it has returned. *)
Fixpoint serve (feed : list Recv) (s : State) : bool * State :=
  match feed with
  | [] => (false, s)
  | FromEvent event :: rest => serve rest (handle event s)
  | FromError err :: rest => serve rest (say (StdLog (V2.Println ["Error:"; Error err])) s)
  | FromClosed :: _ => (true, s)
  | Polled gone :: rest => serve rest (mkState (add_fault s) (watched s ∖ gone) (out s))
  end.

(** [os.IsNotExist]: looks through a [PathError]. *)
Definition os_IsNotExist (err : option error) : bool :=
  match err with
  | Some (SyscallErrno e) => bool_decide (e = ENOENT)
  | Some (PathError _ _ (SyscallErrno e)) => bool_decide (e = ENOENT)
  | _ => false
  end.

(** What [main] finds: the result of [os.Stat] on the path given, of
    [filepath.Abs], and the error of [w.Start] (if any). *)
Record Boot := mkBoot {
  stat : result FileMode;
  abs : result string;
  start_fault : option error
}.

(** [main] ends in [log.Fatalf] (exit code 1), in a run-time panic, or
    stays in [w.Start] polling the directory [dir]. *)
Inductive Outcome :=
| Fatal (s : State)
| Panic (s : State)
| Polling (dir : string) (s : State).

(** [main]; [dirPath] is the value of the [-path] flag.  On an error
    [os.Stat] returns a nil [FileInfo], and [info.IsDir()] on it panics. *)
Definition main (dirPath : string) (boot : Boot) (s : State) : Outcome :=
  let err := match stat boot with Err e => Some e | Ok _ => None end in
  if os_IsNotExist err then
    Fatal (say (StdLog ("Directory does not exist: " +:+ dirPath)) s)
  else
    match stat boot with
    | Err _ => Panic s
    | Ok RegularFile =>
        Fatal (say (StdLog ("Provided path is not a directory: " +:+ dirPath)) s)
    | Ok Directory =>
        match abs boot with
        | Err e =>
            Fatal (say (StdLog ("Could not determine absolute path: " +:+ Error e)) s)
        | Ok absPath =>
            match watchDirectory absPath s with
            | (Some e, s1) =>
                Fatal (say (StdLog ("Error adding directory to watcher: " +:+ Error e)) s1)
            | (None, s1) =>
                match start_fault boot with
                | Some e =>
                    Fatal (say (StdLog ("Error starting watcher: " +:+ Error e)) s1)
                | None => Polling absPath s1
                end
            end
        end
    end.

End V2Main.

(** ** Vocabulary of the further statements *)

(** The paths registered along a trace. *)
Definition registrations (t : list Effect) : list string :=
  omap (λ e, match e with WatchAdded p => Some p | _ => None end) t.

(** A tree the walk can read throughout. *)
Fixpoint readable (t : FsTree) : bool :=
  match t with
  | File _ => true
  | Broken _ _ => false
  | Dir _ readErr entries =>
      match readErr with
      | Some _ => false
      | None => forallb readable entries
      end
  end.

(** The Create events of a feed that the dispatcher enforces the allowlist
    on: matched by the filter, with a name the membership test rejects. *)
Definition enforced (events : list string) (allowed : AllowedExtensions) (event : Event)
  : bool :=
  containsEvent events event && Has (Op event) Create
  && negb (isAllowedExtension (Name event) allowed).

Definition feed_events (feed : list Recv) : list Event :=
  omap (λ r, match r with FromEvents e => Some e | _ => None end) feed.

(** The body of the notification sent for a removed file. *)
Definition alert (path : string) : string * string :=
  ("Disallowed File Alert",
   "A file with disallowed extension was created and removed: " +:+ path).

(** A world with a non-empty directory [/w/data.d] and the notifier down. *)
Definition demo_busy : World :=
  mkWorld (<[ "/w/data.d" := Directory ]> (<[ "/w/data.d/x" := RegularFile ]> demo_fs))
          ∅ ∅ (Some (ErrorString "dbus: no session bus")) {["/w"]} [].

(** What the map of [twoSum] holds while the loop runs: [seen] are the numbers already
    passed over. *)
Definition map_of (seen : list Z) (numMap : gmap Z nat) : Prop :=
  (∀ v k, numMap !! v = Some k → seen !! k = Some v)
  ∧ (∀ k v, seen !! k = Some v → is_Some (numMap !! v)).

(** Two positions of [nums], the first before the second, whose numbers
    add up to [target] in 64-bit arithmetic. *)
Definition is_pair (nums : list Z) (target : Z) (a b : nat) : Prop :=
  (a < b)%nat
  ∧ ∃ x y, nums !! a = Some x ∧ nums !! b = Some y ∧ wrap64 (x + y) = wrap64 target.

(** The world after the watcher has accepted [p], and after it has accepted
    a list of paths one after the other. *)
Definition register (w : World) (p : string) : World :=
  emit (WatchAdded p) (set_watched ({[ p ]} ∪ watched w) w).

Definition register_all (w : World) (ps : list string) : World := foldl register w ps.

(** * Properties *)

(** ** The string functions on small inputs *)

Example ToLower_ex : ToLower ".TxT" = ".txt".
Proof. reflexivity. Qed.

Example TrimSpace_ex : TrimSpace "  .md see  " = ".md see".
Proof. reflexivity. Qed.

Example Ext_ex :
  Ext "/w/a.tar.GZ" = ".GZ" ∧ Ext "/w.d/README" = "" ∧ Ext "/w/.bashrc" = ".bashrc".
Proof. repeat split; reflexivity. Qed.

Example Split_ex : Split "create,Write,,chmod" "," = ["create"; "Write"; ""; "chmod"].
Proof. reflexivity. Qed.

Example raw_lines_ex :
  raw_lines (".txt" +:+ String "010" (".md" +:+ String "013" (String "010" (String "010" "x")))) ""
  = [".txt"; ".md" +:+ String "013" ""; ""; "x"].
Proof. reflexivity. Qed.

Example Op_String_ex :
  Op_String (Z.lor Create Write) = "CREATE|WRITE" ∧ Op_String Rename = "RENAME".
Proof. split; reflexivity. Qed.

(** ** Bit tests *)

Lemma land_bit (a n : Z) :
  0 ≤ n → Z.land a (Z.shiftl 1 n) = if Z.testbit a n then Z.shiftl 1 n else 0.
Proof.
  intros Hn. apply Z.bits_inj'. intros m Hm.
  rewrite Z.land_spec.
  destruct (Z.testbit a n) eqn:Hbit.
  - rewrite Z.shiftl_1_l, Z.pow2_bits_eqb by done.
    destruct (Z.eqb_spec n m) as [->|_].
    + by rewrite Hbit.
    + by rewrite andb_false_r.
  - rewrite Z.bits_0, Z.shiftl_1_l, Z.pow2_bits_eqb by done.
    destruct (Z.eqb_spec n m) as [->|_].
    + by rewrite Hbit.
    + by rewrite andb_false_r.
Qed.

(** For each of the five kinds, the program's test [op & k == k] says that
    the mask of the event and the bit of the kind intersect. *)
Lemma Has_intersects (op : Z) (k : Kind) :
  Has op (kind_mask k) = true ↔ Z.land op (kind_mask k) ≠ 0.
Proof.
  unfold Has.
  assert (∃ n, 0 ≤ n ∧ kind_mask k = Z.shiftl 1 n) as (n & Hn & ->).
  { destruct k; [exists 0|exists 1|exists 2|exists 3|exists 4]; done. }
  rewrite land_bit by done.
  assert (Z.shiftl 1 n ≠ 0).
  { rewrite Z.shiftl_1_l. apply Z.pow_nonzero; lia. }
  destruct (Z.testbit op n).
  - rewrite Z.eqb_refl. done.
  - split; [|done]. intros Heq%Z.eqb_eq. congruence.
Qed.

Lemma kind_name_inj (k1 k2 : Kind) : kind_name k1 = kind_name k2 → k1 = k2.
Proof. destruct k1, k2; simpl; congruence. Qed.

Lemma configured_cons (e : string) (rest : list string) (k : Kind) :
  configured (e :: rest) k ↔ ToLower e = kind_name k ∨ configured rest k.
Proof.
  unfold configured. split.
  - intros (e' & [->|Hin]%elem_of_cons & Hk); [by left|right; eauto].
  - intros [Hk|(e' & Hin & Hk)].
    + exists e. split; [apply list_elem_of_here|done].
    + exists e'. split; [by apply list_elem_of_further|done].
Qed.

(** A token that spells the kind [k0] settles the answer when the event
    carries [k0]; otherwise the loop goes on with the next token. *)
Lemma containsEvent_turn (e : string) (rest : list string) (event : Event)
    (k0 : Kind) (r : bool) :
  ToLower e = kind_name k0 →
  (r = true ↔ ∃ k, configured rest k ∧ Has (Op event) (kind_mask k) = true) →
  (if Has (Op event) (kind_mask k0) then true else r) = true
  ↔ ∃ k, configured (e :: rest) k ∧ Has (Op event) (kind_mask k) = true.
Proof.
  intros He IH. destruct (Has (Op event) (kind_mask k0)) eqn:Hh.
  - split; [|done]. intros _. exists k0. split; [|done].
    apply configured_cons. by left.
  - rewrite IH. split.
    + intros (k & Hc & Hk). exists k. split; [|done]. apply configured_cons. by right.
    + intros (k & [Hc|Hc]%configured_cons & Hk); [|by exists k].
      rewrite He in Hc. apply kind_name_inj in Hc as <-. congruence.
Qed.

Lemma containsEvent_spec (events : list string) (event : Event) :
  containsEvent events event = true
  ↔ ∃ k, configured events k ∧ Has (Op event) (kind_mask k) = true.
Proof.
  induction events as [|e rest IH].
  - simpl. split; [done|]. intros (k & (e & Hin & _) & _). by apply elem_of_nil in Hin.
  - simpl.
    destruct (String.eqb_spec (ToLower e) "create") as [Hc|Hc];
      [exact (containsEvent_turn e rest event KCreate _ Hc IH)|].
    destruct (String.eqb_spec (ToLower e) "write") as [Hw|Hw];
      [exact (containsEvent_turn e rest event KWrite _ Hw IH)|].
    destruct (String.eqb_spec (ToLower e) "remove") as [Hr|Hr];
      [exact (containsEvent_turn e rest event KRemove _ Hr IH)|].
    destruct (String.eqb_spec (ToLower e) "rename") as [Hn|Hn];
      [exact (containsEvent_turn e rest event KRename _ Hn IH)|].
    destruct (String.eqb_spec (ToLower e) "chmod") as [Hm|Hm];
      [exact (containsEvent_turn e rest event KChmod _ Hm IH)|].
    rewrite IH. split.
    + intros (k & Hk & Hh). exists k. split; [|done]. apply configured_cons. by right.
    + intros (k & [Hk|Hk]%configured_cons & Hh); [|by exists k].
      destruct k; simpl in Hk; congruence.
Qed.

(** C6: an event is of interest exactly when its operation mask intersects
    the bit of at least one configured kind, the tokens of the filter being
    read without regard to letter case; so an event carrying Create and
    Write is of interest as soon as a token spells create or write. *)
Theorem C6_containsEvent_intersects :
  (∀ (events : list string) (event : Event),
     containsEvent events event = true
     ↔ ∃ k, configured events k ∧ Z.land (Op event) (kind_mask k) ≠ 0)
  ∧ (∀ (events : list string) (name : string),
       containsEvent events (mkEvent name (Z.lor Create Write)) = true
       ↔ configured events KCreate ∨ configured events KWrite)
  ∧ containsEvent ["CREATE"] (mkEvent "/w/a" Create) = true
  ∧ containsEvent ["wRiTe"] (mkEvent "/w/a" (Z.lor Create Write)) = true
  ∧ containsEvent ["remove"; "chmod"] (mkEvent "/w/a" (Z.lor Create Write)) = false.
Proof.
  split; [|split; [|by vm_compute]].
  - intros events event. rewrite containsEvent_spec.
    split; intros (k & Hc & Hk); exists k; (split; [done|]); by apply Has_intersects.
  - intros events name. rewrite containsEvent_spec. split.
    + intros (k & Hc & Hk). destruct k; [by left|by right|..]; by vm_compute in Hk.
    + intros [Hc|Hc]; [exists KCreate|exists KWrite]; (split; [done|]); by vm_compute.
Qed.

(** ** The allowlist *)

Lemma elem_of_load (lines : list string) (acc : AllowedExtensions) (x : string) :
  x ∈ foldl load_line acc lines
  ↔ x ∈ acc ∨ (x ≠ "" ∧ ∃ l, l ∈ lines ∧ TrimSpace l = x).
Proof.
  revert acc. induction lines as [|l lines IH]; intros acc; simpl.
  - split; [by left|]. intros [?|(_ & l & Hin & _)]; [done|]. by apply elem_of_nil in Hin.
  - rewrite IH. unfold load_line. case_bool_decide as Hne.
    + rewrite elem_of_union, elem_of_singleton. split.
      * intros [[->|?]|(? & l' & ? & ?)].
        -- right. split; [done|]. exists l. split; [apply list_elem_of_here|done].
        -- by left.
        -- right. split; [done|]. exists l'. split; [by apply list_elem_of_further|done].
      * intros [?|(? & l' & [->|?]%elem_of_cons & Hl')].
        -- left. by right.
        -- left. by left.
        -- right. split; [done|]. by exists l'.
    + split.
      * intros [?|(? & l' & ? & ?)]; [by left|].
        right. split; [done|]. exists l'. split; [by apply list_elem_of_further|done].
      * intros [?|(Hx & l' & [->|?]%elem_of_cons & Hl')]; [by left| |].
        -- exfalso. apply Hx. rewrite <- Hl'. by destruct (decide (TrimSpace l = "")).
        -- right. split; [done|]. by exists l'.
Qed.

(** What the program's membership test amounts to: the lower-cased
    extension of the file must be, byte for byte, a trimmed non-blank line
    of the allowlist file.  The lines themselves are not lower-cased. *)
Lemma isAllowedExtension_loaded (content fileName : string) (allowed : AllowedExtensions) :
  loadAllowedExtensions (Ok content) = Ok allowed →
  isAllowedExtension fileName allowed = true
  ↔ ToLower (Ext fileName) ≠ ""
    ∧ ∃ l, l ∈ dropCR <$> raw_lines content "" ∧ TrimSpace l = ToLower (Ext fileName).
Proof.
  unfold loadAllowedExtensions, isAllowedExtension.
  destruct (existsb too_long _); [done|]. intros [= <-].
  rewrite bool_decide_eq_true, elem_of_load. split; [intros [[]%not_elem_of_empty|?]; done|by right].
Qed.

Lemma loaded_not_blank (file : result string) (allowed : AllowedExtensions) :
  loadAllowedExtensions file = Ok allowed → "" ∉ allowed.
Proof.
  unfold loadAllowedExtensions. destruct file as [content|]; [|done].
  destruct (existsb too_long _); [done|]. intros [= <-].
  rewrite elem_of_load. intros [[]%not_elem_of_empty|[? _]]; done.
Qed.

(** C2: the allowlist file holding [.TXT], the program stores the entry as
    it is written and looks the lower-cased extension up in that set, so
    neither [a.txt] nor [a.TXT] is allowed; only an entry written in lower
    case is matched without regard to the case of the file's extension. *)
Theorem C2_uppercase_entry_never_matches :
  loadAllowedExtensions (Ok (".TXT" +:+ String "010" "")) = Ok {[ ".TXT" ]}
  ∧ isAllowedExtension "/w/a.txt" {[ ".TXT" ]} = false
  ∧ isAllowedExtension "/w/a.TXT" {[ ".TXT" ]} = false
  ∧ isAllowedExtension "/w/a.TXT" {[ ".txt" ]} = true.
Proof. repeat split; by vm_compute. Qed.

(** ** The operating-system calls *)

Lemma os_Remove_fails (name : string) (w w' : World) (err : error) :
  os_Remove name w = (Some err, w') → w' = w.
Proof.
  unfold os_Remove. repeat case_match; congruence.
Qed.

Lemma os_Remove_emit (name : string) (e : Effect) (w : World) :
  os_Remove name (emit e w)
  = match os_Remove name w with
    | (Some err, _) => (Some err, emit e w)
    | (None, _) => (None, emit (Removed name) (set_fs (delete name (fs w)) (emit e w)))
    end.
Proof.
  unfold os_Remove. simpl. repeat case_match; congruence.
Qed.

Lemma os_Remove_file (name : string) (w : World) :
  fs w !! name = Some RegularFile →
  remove_fault w !! name = None →
  os_Remove name w = (None, emit (Removed name) (set_fs (delete name (fs w)) w)).
Proof. unfold os_Remove. by intros -> ->. Qed.

Lemma os_Remove_gone (name : string) (w : World) :
  fs w !! name = None →
  remove_fault w !! name = None →
  os_Remove name w = (Some (PathError "remove" name (SyscallErrno ENOENT)), w).
Proof. unfold os_Remove. by intros -> ->. Qed.

Lemma removals_snoc (t : list Effect) (e : Effect) :
  removals (t ++ [e]) = removals t ++ match e with Removed p => [p] | _ => [] end.
Proof. unfold removals. rewrite omap_app. by destruct e. Qed.

Lemma notifications_snoc (t : list Effect) (e : Effect) :
  notifications (t ++ [e])
  = notifications t ++ match e with Notified a b => [(a, b)] | _ => [] end.
Proof. unfold notifications. rewrite omap_app. by destruct e. Qed.

Lemma logs_at_snoc (lvl : Level) (t : list Effect) (e : Effect) :
  logs_at lvl (t ++ [e])
  = logs_at lvl t ++ match e with
                     | Logged l msg => if bool_decide (l = lvl) then [msg] else []
                     | _ => []
                     end.
Proof. unfold logs_at. rewrite omap_app. destruct e; simpl; [by case_bool_decide|done..]. Qed.

(** Pushes [removals], [notifications] and [logs_at] through the effects
    appended to a trace. *)
Ltac trace_simpl :=
  rewrite ?removals_snoc, ?notifications_snoc, ?logs_at_snoc, ?app_nil_r.

(** ** The directory registration step *)

(** The registration step touches neither the file system nor the fault
    conditions, removes nothing, notifies nobody and logs nothing at info
    level. *)
Lemma addNewDirectory_quiet (event : Event) (w : World) :
  let w' := addNewDirectory event w in
  fs w' = fs w ∧ remove_fault w' = remove_fault w ∧ add_fault w' = add_fault w
  ∧ notify_fault w' = notify_fault w
  ∧ removals (trace w') = removals (trace w)
  ∧ notifications (trace w') = notifications (trace w)
  ∧ logs_at InfoLevel (trace w') = logs_at InfoLevel (trace w).
Proof.
  unfold addNewDirectory, os_Stat, watcher_Add, Errorf.
  repeat case_match; simplify_eq; simpl; trace_simpl; done.
Qed.


Lemma addNewDirectory_registers (event : Event) (w : World) :
  Has (Op event) Create = true →
  os_Stat (Name event) w = Some Directory →
  add_fault w !! Name event = None →
  addNewDirectory event w
  = emit (WatchAdded (Name event)) (set_watched ({[ Name event ]} ∪ watched w) w).
Proof. unfold addNewDirectory, watcher_Add. by intros -> -> ->. Qed.

Lemma addNewDirectory_refused (event : Event) (w : World) (e : Errno) :
  Has (Op event) Create = true →
  os_Stat (Name event) w = Some Directory →
  add_fault w !! Name event = Some e →
  addNewDirectory event w
  = Errorf ("Failed to add new directory to watcher: " +:+ strerror e) w.
Proof. unfold addNewDirectory, watcher_Add. by intros -> -> ->. Qed.

(** ** The guarded block *)

Lemma logAndEnforce_unmatched (events : list string) (allowed : AllowedExtensions)
    (event : Event) (w : World) :
  containsEvent events event = false → logAndEnforce events allowed event w = w.
Proof. unfold logAndEnforce. by intros ->. Qed.

(** The guarded block never touches the watch set or the fault conditions. *)
Lemma logAndEnforce_frame (events : list string) (allowed : AllowedExtensions)
    (event : Event) (w : World) :
  let w' := logAndEnforce events allowed event w in
  watched w' = watched w ∧ add_fault w' = add_fault w
  ∧ remove_fault w' = remove_fault w ∧ notify_fault w' = notify_fault w.
Proof.
  unfold logAndEnforce, handleDisallowedFile, beeep_Notify, Warnf, Infof, Errorf.
  rewrite !os_Remove_emit. unfold os_Remove.
  repeat case_match; simplify_eq; simpl; done.
Qed.

(** A file the membership test accepts is neither removed nor reported. *)
Lemma logAndEnforce_allowed (events : list string) (allowed : AllowedExtensions)
    (event : Event) (w : World) :
  isAllowedExtension (Name event) allowed = true →
  let w' := handleEvent events allowed event w in
  fs w' = fs w ∧ removals (trace w') = removals (trace w)
  ∧ notifications (trace w') = notifications (trace w).
Proof.
  intros Hal. unfold handleEvent.
  destruct (addNewDirectory_quiet event (logAndEnforce events allowed event w))
    as (-> & _ & _ & _ & -> & -> & _).
  unfold logAndEnforce, Infof. rewrite Hal. simpl.
  repeat case_match; simpl; trace_simpl; done.
Qed.

(** ** Enforcement *)

(** What the guarded block does to a disallowed file that can be removed. *)
Lemma logAndEnforce_removes (events : list string) (allowed : AllowedExtensions)
    (event : Event) (w : World) :
  containsEvent events event = true →
  Has (Op event) Create = true →
  isAllowedExtension (Name event) allowed = false →
  (os_Remove (Name event) w).1 = None →
  let w' := logAndEnforce events allowed event w in
  fs w' = delete (Name event) (fs w)
  ∧ trace w' =
      trace w
      ++ [ Logged InfoLevel
             ("Event: " +:+ Op_String (Op event) +:+ " on file: " +:+ Name event);
           Logged WarnLevel ("Disallowed file extension: " +:+ Name event);
           Removed (Name event);
           Notified "Disallowed File Alert"
             ("A file with disallowed extension was created and removed: " +:+ Name event) ]
      ++ match notify_fault w with
         | Some e =>
             [ Logged ErrorLevel
                 ("Failed to handle disallowed file: failed to send notification: "
                  +:+ Error e) ]
         | None => []
         end.
Proof.
  intros Hc Hh Hal Hrm.
  unfold logAndEnforce, handleDisallowedFile, beeep_Notify, Warnf, Infof, Errorf.
  rewrite Hc, Hh, Hal. simpl negb. cbv iota.
  rewrite !os_Remove_emit.
  destruct (os_Remove (Name event) w) as [[err|] w1]; [done|].
  simpl. destruct (notify_fault w); simpl; rewrite <- ?app_assoc; done.
Qed.

(** What the guarded block does when the removal fails. *)
Lemma logAndEnforce_remove_fails (events : list string) (allowed : AllowedExtensions)
    (event : Event) (w : World) (err : error) :
  containsEvent events event = true →
  Has (Op event) Create = true →
  isAllowedExtension (Name event) allowed = false →
  (os_Remove (Name event) w).1 = Some err →
  let w' := logAndEnforce events allowed event w in
  fs w' = fs w
  ∧ trace w' =
      trace w
      ++ [ Logged InfoLevel
             ("Event: " +:+ Op_String (Op event) +:+ " on file: " +:+ Name event);
           Logged WarnLevel ("Disallowed file extension: " +:+ Name event) ]
      ++ (if errors_Is err ENOENT then []
          else [ Logged ErrorLevel
                   ("Failed to handle disallowed file: "
                    +:+ Error (Errorf_w "could not remove disallowed file: " err)) ]).
Proof.
  intros Hc Hh Hal Hrm.
  unfold logAndEnforce, handleDisallowedFile, Warnf, Infof, Errorf.
  rewrite Hc, Hh, Hal. simpl negb. cbv iota.
  rewrite !os_Remove_emit.
  destruct (os_Remove (Name event) w) as [[err'|] w1]; simpl in Hrm; [|done].
  injection Hrm as ->.
  destruct (errors_Is err ENOENT); simpl; rewrite <- ?app_assoc; done.
Qed.

(** The guarded block issues no notification unless the removal succeeded. *)
Lemma no_removal_no_notification (events : list string) (allowed : AllowedExtensions)
    (event : Event) (w : World) (err : error) :
  (os_Remove (Name event) w).1 = Some err →
  notifications (trace (handleEvent events allowed event w)) = notifications (trace w).
Proof.
  intros Hrm. unfold handleEvent.
  destruct (addNewDirectory_quiet event (logAndEnforce events allowed event w))
    as (_ & _ & _ & _ & _ & -> & _).
  unfold logAndEnforce, handleDisallowedFile, Warnf, Infof, Errorf.
  rewrite !os_Remove_emit.
  destruct (os_Remove (Name event) w) as [[err'|] w1]; [|done].
  repeat case_match; simplify_eq; simpl; trace_simpl; done.
Qed.

(** C3, counterexample: a Create event for the regular file
    [/w/payload.exe], whose extension is not in the allowlist.  Handled
    under a filter that lists only [write], the file is still there, nothing
    was removed and no notification was issued; handled under a filter that
    lists [create] while the kernel refuses the removal, the file is still
    there as well and no notification was issued. *)
Lemma C3_counterexample :
  let event := mkEvent "/w/payload.exe" Create in
  let allowed : AllowedExtensions := {[ ".txt"; ".md" ]} in
  let w' := handleEvent ["write"] allowed event demo in
  let w'' := handleEvent ["create"] allowed event demo_locked in
  Has (Op event) Create = true
  ∧ os_Stat (Name event) demo = Some RegularFile
  ∧ isAllowedExtension (Name event) allowed = false
  ∧ fs w' !! Name event = Some RegularFile
  ∧ removals (trace w') = []
  ∧ notifications (trace w') = []
  ∧ fs w'' !! Name event = Some RegularFile
  ∧ removals (trace w'') = []
  ∧ notifications (trace w'') = [].
Proof. repeat split; by vm_compute. Qed.

(** What handling the event does to a disallowed regular file that can be
    removed: the registration step that follows finds nothing to look at. *)
Lemma handleEvent_removes (events : list string) (allowed : AllowedExtensions)
    (event : Event) (w : World) :
  containsEvent events event = true →
  Has (Op event) Create = true →
  isAllowedExtension (Name event) allowed = false →
  fs w !! Name event = Some RegularFile →
  remove_fault w !! Name event = None →
  handleEvent events allowed event w = logAndEnforce events allowed event w
  ∧ (os_Remove (Name event) w).1 = None.
Proof.
  intros Hc Hh Hal Hfile Hfault.
  assert ((os_Remove (Name event) w).1 = None) as Hrm.
  { by rewrite os_Remove_file. }
  split; [|done].
  destruct (logAndEnforce_removes events allowed event w Hc Hh Hal Hrm) as [Hfs _].
  unfold handleEvent, addNewDirectory, os_Stat.
  rewrite Hh, Hfs, lookup_delete_eq. done.
Qed.

(** C3, as the program has it: for a Create event that matches the
    configured filter, whose target is a regular file with a lower-cased
    extension outside the allowlist and whose removal the system accepts,
    handling the event removes the file and then issues exactly one
    notification, whose body ends with the path of the file; and whenever
    the removal fails, no notification is issued. *)
Theorem C3_matched_disallowed_file_removed_then_notified :
  (∀ (events : list string) (allowed : AllowedExtensions) (event : Event) (w : World),
     containsEvent events event = true →
     Has (Op event) Create = true →
     isAllowedExtension (Name event) allowed = false →
     fs w !! Name event = Some RegularFile →
     remove_fault w !! Name event = None →
     let w' := handleEvent events allowed event w in
     fs w' = delete (Name event) (fs w)
     ∧ removals (trace w') = removals (trace w) ++ [Name event]
     ∧ notifications (trace w')
       = notifications (trace w)
         ++ [("Disallowed File Alert",
              "A file with disallowed extension was created and removed: " +:+ Name event)]
     ∧ ∃ before after,
         trace w' = trace w ++ before
                    ++ [Removed (Name event);
                        Notified "Disallowed File Alert"
                          ("A file with disallowed extension was created and removed: "
                           +:+ Name event)]
                    ++ after
         ∧ notifications before = [] ∧ notifications after = [])
  ∧ (∀ (events : list string) (allowed : AllowedExtensions) (event : Event) (w : World)
       (err : error),
       (os_Remove (Name event) w).1 = Some err →
       notifications (trace (handleEvent events allowed event w)) = notifications (trace w)).
Proof.
  split; [|exact no_removal_no_notification].
  intros events allowed event w Hc Hh Hal Hfile Hfault w'.
  destruct (handleEvent_removes events allowed event w Hc Hh Hal Hfile Hfault)
    as [Heq Hrm].
  destruct (logAndEnforce_removes events allowed event w Hc Hh Hal Hrm) as [Hfs Htr].
  unfold w'. rewrite Heq. split; [done|]. rewrite Htr.
  split; [|split].
  - unfold removals. rewrite !omap_app. simpl. by destruct (notify_fault w).
  - unfold notifications. rewrite !omap_app. simpl. by destruct (notify_fault w).
  - eexists [_; _], _. split; [reflexivity|]. split; [done|].
    by destruct (notify_fault w).
Qed.

(** The theorem at work on [/w/payload.exe]. *)
Lemma C3_witness :
  let event := mkEvent "/w/payload.exe" Create in
  let w' := handleEvent ["create"] {[ ".txt"; ".md" ]} event demo in
  fs w' = delete "/w/payload.exe" (fs demo)
  ∧ removals (trace w') = removals (trace demo) ++ ["/w/payload.exe"]
  ∧ notifications (trace (handleEvent ["create"] {[ ".txt" ]} event demo_locked))
    = notifications (trace demo_locked).
Proof.
  destruct C3_matched_disallowed_file_removed_then_notified as [Hok Hfail].
  destruct (Hok ["create"] ({[ ".txt"; ".md" ]} : AllowedExtensions)
              (mkEvent "/w/payload.exe" Create) demo) as (H1 & H2 & _);
    [by vm_compute..|].
  split; [exact H1|]. split; [exact H2|].
  apply (Hfail _ _ _ _ (PathError "remove" "/w/payload.exe" (SyscallErrno EACCES))).
  by vm_compute.
Defined.

(** C4: when the removal of a disallowed file fails with an error that is
    ENOENT, the handler returns no error and does nothing else, and the
    dispatcher logs no error line; when it fails with any other error, the
    handler returns that error wrapped, the dispatcher logs it at error
    level, and in both cases the file system is left as it was. *)
Theorem C4_already_removed_is_success (fileName : string) (w : World) (err : error) :
  (os_Remove fileName w).1 = Some err →
  handleDisallowedFile fileName w
  = (if errors_Is err ENOENT then None
     else Some (Errorf_w "could not remove disallowed file: " err), w)
  ∧ ∀ (events : list string) (allowed : AllowedExtensions) (op : Z),
      containsEvent events (mkEvent fileName op) = true →
      Has op Create = true →
      isAllowedExtension fileName allowed = false →
      let w' := logAndEnforce events allowed (mkEvent fileName op) w in
      fs w' = fs w
      ∧ logs_at ErrorLevel (trace w')
        = logs_at ErrorLevel (trace w)
          ++ (if errors_Is err ENOENT then []
              else ["Failed to handle disallowed file: could not remove disallowed file: "
                    +:+ Error err]).
Proof.
  intros Hrm. split.
  - unfold handleDisallowedFile.
    destruct (os_Remove fileName w) as [[err'|] w1] eqn:Hos; simpl in Hrm; [|done].
    injection Hrm as ->. apply os_Remove_fails in Hos as ->.
    by destruct (errors_Is err ENOENT).
  - intros events allowed op Hc Hh Hal w'.
    destruct (logAndEnforce_remove_fails events allowed (mkEvent fileName op) w err
                Hc Hh Hal Hrm) as [Hfs Htr].
    split; [done|]. unfold w'. rewrite Htr.
    unfold logs_at. rewrite !omap_app. simpl.
    by destruct (errors_Is err ENOENT).
Qed.

(** The theorem at work: [/w/payload.exe] already deleted by another
    process, and [/w/payload.exe] that the kernel refuses to unlink. *)
Lemma C4_witness :
  handleDisallowedFile "/w/payload.exe" demo_gone = (None, demo_gone)
  ∧ handleDisallowedFile "/w/payload.exe" demo_locked
    = (Some (Errorf_w "could not remove disallowed file: "
               (PathError "remove" "/w/payload.exe" (SyscallErrno EACCES))),
       demo_locked).
Proof.
  split.
  - apply (C4_already_removed_is_success "/w/payload.exe" demo_gone
             (PathError "remove" "/w/payload.exe" (SyscallErrno ENOENT))).
    by vm_compute.
  - apply (C4_already_removed_is_success "/w/payload.exe" demo_locked
             (PathError "remove" "/w/payload.exe" (SyscallErrno EACCES))).
    by vm_compute.
Defined.

(** C1, counterexample: the same Create event for the regular file
    [/w/payload.exe] in the same world, under a filter without [create] and
    under one with it.  The filter decides more than the log line: without
    [create] the file stays and nobody is notified, with [create] the file
    is removed and a notification is issued. *)
Lemma C1_counterexample :
  let event := mkEvent "/w/payload.exe" Create in
  let allowed : AllowedExtensions := {[ ".txt"; ".md" ]} in
  let silent := handleEvent ["write"; "remove"] allowed event demo in
  let loud := handleEvent ["create"] allowed event demo in
  os_Stat (Name event) demo = Some RegularFile
  ∧ containsEvent ["write"; "remove"] event = false
  ∧ fs silent !! Name event = Some RegularFile
  ∧ removals (trace silent) = [] ∧ notifications (trace silent) = []
  ∧ fs loud !! Name event = None
  ∧ removals (trace loud) = ["/w/payload.exe"]
  ∧ length (notifications (trace loud)) = 1%nat.
Proof. repeat split; by vm_compute. Qed.

(** C1, as the program has it: the filter guards the log line and the
    extension enforcement together, so an event that matches no configured
    kind is neither logged at info level, nor checked against the allowlist,
    nor removed, nor reported; what runs for every Create event, whatever
    the filter, is the registration step alone: a target that is a directory
    when the step looks at it, and that the watcher accepts, is in the watch
    set afterwards. *)
Theorem C1_filter_guards_enforcement_not_registration
    (events : list string) (allowed : AllowedExtensions) (event : Event) (w : World) :
  Has (Op event) Create = true →
  let w' := handleEvent events allowed event w in
  (containsEvent events event = false →
     w' = addNewDirectory event w
     ∧ fs w' = fs w
     ∧ removals (trace w') = removals (trace w)
     ∧ notifications (trace w') = notifications (trace w)
     ∧ logs_at InfoLevel (trace w') = logs_at InfoLevel (trace w))
  ∧ (os_Stat (Name event) (logAndEnforce events allowed event w) = Some Directory →
     add_fault w !! Name event = None →
     Name event ∈ watched w').
Proof.
  intros Hh w'. split.
  - intros Hc. unfold w', handleEvent. rewrite logAndEnforce_unmatched by done.
    split; [done|]. by destruct (addNewDirectory_quiet event w) as (? & _ & _ & _ & ? & ? & ?).
  - intros Hstat Hadd. unfold w', handleEvent.
    destruct (logAndEnforce_frame events allowed event w) as (_ & Haf & _).
    rewrite addNewDirectory_registers by (by rewrite ?Haf).
    simpl. apply elem_of_union_l. by apply elem_of_singleton.
Qed.

(** The theorem at work: a new directory and a new file, both under a
    filter that does not list [create]. *)
Lemma C1_witness :
  "/w/data" ∈ watched (handleEvent ["write"] {[ ".txt" ]} (mkEvent "/w/data" Create) demo)
  ∧ fs (handleEvent ["write"] {[ ".txt" ]} (mkEvent "/w/payload.exe" Create) demo) = fs demo.
Proof.
  split.
  - apply (C1_filter_guards_enforcement_not_registration
             ["write"] {[ ".txt" ]} (mkEvent "/w/data" Create) demo); by vm_compute.
  - apply (C1_filter_guards_enforcement_not_registration
             ["write"] {[ ".txt" ]} (mkEvent "/w/payload.exe" Create) demo); by vm_compute.
Defined.

(** ** Log lines *)

Lemma prefix_append (a b : string) : String.prefix a (a +:+ b) = true.
Proof.
  induction a as [|c a IH]; simpl; [by destruct b|].
  destruct (Ascii.ascii_dec c c); [done|congruence].
Qed.

Lemma contains_prefix (needle s : string) :
  String.prefix needle s = true → contains needle s = true.
Proof. intros H. destruct s; simpl in *; rewrite H; done. Qed.

Lemma contains_append (needle a b : string) : contains needle (a +:+ needle +:+ b) = true.
Proof.
  induction a as [|c a IH].
  - exact (contains_prefix _ _ (prefix_append needle b)).
  - change (contains needle (String c (a +:+ needle +:+ b)) = true).
    simpl. rewrite IH. apply orb_true_r.
Qed.

Lemma append_assoc (a b c : string) : (a +:+ b) +:+ c = a +:+ b +:+ c.
Proof.
  induction a as [|x a IH]; [done|].
  change (String x ((a +:+ b) +:+ c) = String x (a +:+ b +:+ c)). by rewrite IH.
Qed.

(** The info lines one event adds to the log. *)
Lemma handleEvent_info (events : list string) (allowed : AllowedExtensions)
    (event : Event) (w : World) :
  logs_at InfoLevel (trace (handleEvent events allowed event w))
  = logs_at InfoLevel (trace w)
    ++ (if containsEvent events event
        then ["Event: " +:+ Op_String (Op event) +:+ " on file: " +:+ Name event]
        else []).
Proof.
  unfold handleEvent.
  destruct (addNewDirectory_quiet event (logAndEnforce events allowed event w))
    as (_ & _ & _ & _ & _ & _ & ->).
  unfold logAndEnforce, handleDisallowedFile, beeep_Notify, Warnf, Infof, Errorf.
  rewrite !os_Remove_emit.
  destruct (os_Remove (Name event) w) as [[err|] w1];
    repeat case_match; simplify_eq; simpl; trace_simpl; simpl; trace_simpl; done.
Qed.

(** C5, counterexample: a Rename event under a filter that lists [rename]
    is logged as [Event: RENAME on file: /w/a.txt]; the line holds the one
    path the event has and is not of the shape
    [<kind>: <old_path> to <new_path>]. *)
Lemma C5_counterexample :
  let event := mkEvent "/w/a.txt" Rename in
  let line := "Event: RENAME on file: /w/a.txt" in
  containsEvent ["rename"] event = true
  ∧ trace (handleEvent ["rename"] {[ ".txt" ]} event demo) = [Logged InfoLevel line]
  ∧ ∀ kind old_path new_path, line ≠ kind +:+ ": " +:+ old_path +:+ " to " +:+ new_path.
Proof.
  split; [by vm_compute|]. split; [by vm_compute|].
  intros kind old_path new_path Heq.
  assert (contains " to " "Event: RENAME on file: /w/a.txt" = true) as Hcontains.
  { rewrite Heq, <- append_assoc, <- append_assoc. apply contains_append. }
  by vm_compute in Hcontains.
Qed.

(** C5, as the two variants have it: the v8 dispatcher logs exactly one
    info line [Event: <kinds> on file: <path>] for every matched event,
    whatever kinds it carries, Rename included, and none for an unmatched
    event; the line with the old and the new path is printed by the v2
    variant only, as [File renamed: <old> to <new>] and
    [File moved: <old> to <new>]. *)
Theorem C5_log_line_shapes :
  (∀ (events : list string) (allowed : AllowedExtensions) (event : Event) (w : World),
     logs_at InfoLevel (trace (handleEvent events allowed event w))
     = logs_at InfoLevel (trace w)
       ++ (if containsEvent events event
           then ["Event: " +:+ Op_String (Op event) +:+ " on file: " +:+ Name event]
           else []))
  ∧ (∀ (path old : string) (isDir : bool),
       V2.event_line (V2.mkEvent V2.Rename path old isDir)
       = Some ("File renamed: " +:+ old +:+ " to " +:+ path)
       ∧ V2.event_line (V2.mkEvent V2.Move path old isDir)
         = Some ("File moved: " +:+ old +:+ " to " +:+ path)
       ∧ V2.event_line (V2.mkEvent V2.Create path old isDir)
         = Some ("File created: " +:+ path)).
Proof.
  split; [exact handleEvent_info|].
  intros path old isDir. unfold V2.event_line, V2.Println. simpl.
  rewrite !append_assoc. done.
Qed.

(** ** Allowed and extension-less files *)

(** C8: the allowlist file holding [.TXT], a Create event for the existing
    file [/w/a.txt], matched by the filter: the extension is in the loaded
    set up to letter case, yet the program removes the file and issues a
    notification.  With the entry written [.txt] it does neither. *)
Theorem C8_uppercase_entry_file_removed :
  let event := mkEvent "/w/a.txt" Create in
  let w' := handleEvent ["create"] {[ ".TXT" ]} event demo in
  let w'' := handleEvent ["create"] {[ ".txt" ]} event demo in
  loadAllowedExtensions (Ok ".TXT") = Ok {[ ".TXT" ]}
  ∧ ToLower ".TXT" = ToLower (Ext (Name event))
  ∧ fs demo !! Name event = Some RegularFile
  ∧ fs w' !! Name event = None
  ∧ removals (trace w') = ["/w/a.txt"]
  ∧ notifications (trace w')
    = [("Disallowed File Alert",
        "A file with disallowed extension was created and removed: /w/a.txt")]
  ∧ fs w'' = fs demo ∧ removals (trace w'') = [] ∧ notifications (trace w'') = [].
Proof. repeat split; by vm_compute. Qed.

(** C10, counterexample: a Create event for the extension-less regular
    file [/w/README].  Under a filter that lists only [write] the file is
    not removed; under a filter that lists [create], with the kernel
    refusing the removal, it is not removed either. *)
Lemma C10_counterexample :
  let event := mkEvent "/w/README" Create in
  let w' := handleEvent ["write"] {[ ".txt"; ".md" ]} event demo in
  let w'' := handleEvent ["create"] {[ ".txt"; ".md" ]} event demo_locked in
  Ext (Name event) = ""
  ∧ loadAllowedExtensions (Ok (".txt" +:+ String "010" ".md")) = Ok {[ ".txt"; ".md" ]}
  ∧ fs demo !! Name event = Some RegularFile
  ∧ fs w' !! Name event = Some RegularFile
  ∧ removals (trace w') = []
  ∧ fs w'' !! Name event = Some RegularFile
  ∧ removals (trace w'') = [].
Proof. repeat split; by vm_compute. Qed.

(** C10, as the program has it: whatever the allowlist file holds, a name
    without extension fails the membership test, because the loader keeps
    no blank entry; and a Create event for such a regular file is followed
    by its removal when the event matches the configured filter and the
    system accepts the removal. *)
Theorem C10_no_extension_is_disallowed
    (file : result string) (allowed : AllowedExtensions) (fileName : string) :
  loadAllowedExtensions file = Ok allowed →
  Ext fileName = "" →
  isAllowedExtension fileName allowed = false
  ∧ ∀ (events : list string) (op : Z) (w : World),
      containsEvent events (mkEvent fileName op) = true →
      Has op Create = true →
      fs w !! fileName = Some RegularFile →
      remove_fault w !! fileName = None →
      let w' := handleEvent events allowed (mkEvent fileName op) w in
      fs w' !! fileName = None ∧ removals (trace w') = removals (trace w) ++ [fileName].
Proof.
  intros Hload Hext.
  assert (isAllowedExtension fileName allowed = false) as Hal.
  { unfold isAllowedExtension. rewrite Hext. simpl.
    apply bool_decide_eq_false. by apply (loaded_not_blank file). }
  split; [done|].
  intros events op w Hc Hh Hfile Hfault w'.
  destruct (handleEvent_removes events allowed (mkEvent fileName op) w Hc Hh Hal
              Hfile Hfault) as [Heq Hrm].
  destruct (logAndEnforce_removes events allowed (mkEvent fileName op) w Hc Hh Hal Hrm)
    as [Hfs Htr].
  unfold w'. rewrite Heq. simpl in Hfs, Htr. rewrite Hfs, Htr, lookup_delete_eq.
  split; [done|].
  unfold removals. rewrite !omap_app. simpl. by destruct (notify_fault w).
Qed.

(** The theorem at work on [/w/README], with the allowlist of the examples. *)
Lemma C10_witness :
  isAllowedExtension "/w/README" {[ ".txt"; ".md" ]} = false
  ∧ fs (handleEvent ["create"] {[ ".txt"; ".md" ]} (mkEvent "/w/README" Create) demo)
    !! "/w/README" = None.
Proof.
  destruct (C10_no_extension_is_disallowed
              (Ok (".txt" +:+ String "010" ".md")) {[ ".txt"; ".md" ]} "/w/README")
    as [Hal Hrm]; [by vm_compute..|].
  split; [exact Hal|].
  apply (Hrm ["create"] Create demo); by vm_compute.
Defined.

(** ** The initial walk and the running loop *)

Lemma FsTree_nested_ind (P : FsTree → Prop) :
  (∀ n, P (File n)) →
  (∀ n err, P (Broken n err)) →
  (∀ n readErr entries, Forall P entries → P (Dir n readErr entries)) →
  ∀ t, P t.
Proof.
  intros HFile HBroken HDir. fix IH 1. intros [n|n err|n readErr entries].
  - apply HFile.
  - apply HBroken.
  - apply HDir. induction entries as [|t entries IHentries]; constructor.
    + apply IH.
    + apply IHentries.
Qed.

Lemma walkFn_add_fault (path : string) (info : option FileMode) (err : option error)
    (w : World) :
  add_fault (walkFn path info err w).2 = add_fault w.
Proof.
  unfold walkFn, watcher_Add. repeat case_match; simplify_eq; done.
Qed.

(** The walk registers directories and changes nothing else, the fault
    conditions of the watcher in particular. *)
Lemma walk_add_fault (t : FsTree) :
  ∀ path w, add_fault (walk path t w).2 = add_fault w.
Proof.
  induction t as [n|n err|n readErr entries IH] using FsTree_nested_ind; intros path w.
  - apply walkFn_add_fault.
  - apply walkFn_add_fault.
  - simpl.
    pose proof (walkFn_add_fault path (Some Directory) readErr w) as Hfn.
    destruct (walkFn path (Some Directory) readErr w) as [[e|] w1]; [done|].
    simpl in Hfn. rewrite <- Hfn. clear Hfn. revert w1.
    induction IH as [|t entries Ht _ IHentries]; intros w1; simpl; [done|].
    specialize (Ht (Join path (entry_name t)) w1).
    destruct (walk (Join path (entry_name t)) t w1) as [[e|] w2]; simpl in Ht; [done|].
    rewrite IHentries. done.
Qed.

(** A directory of the tree that the watcher refuses makes the walk return
    an error (at that directory, or earlier). *)
Lemma walk_refused (t : FsTree) :
  ∀ path w p,
    p ∈ dir_paths path t → is_Some (add_fault w !! p) → is_Some (walk path t w).1.
Proof.
  induction t as [n|n err|n readErr entries IH] using FsTree_nested_ind;
    intros path w p Hin Hfault.
  - by apply elem_of_nil in Hin.
  - by apply elem_of_nil in Hin.
  - simpl in Hin. simpl.
    pose proof (walkFn_add_fault path (Some Directory) readErr w) as Hfn.
    destruct (walkFn path (Some Directory) readErr w) as [[e|] w1] eqn:HwalkFn; [by eexists|].
    apply elem_of_cons in Hin as [->|Hin].
    { exfalso. unfold walkFn, watcher_Add in HwalkFn. destruct Hfault as [e He].
      rewrite He in HwalkFn. by destruct readErr. }
    simpl in Hfn. rewrite <- Hfn in Hfault. clear Hfn HwalkFn. revert w1 Hin Hfault.
    induction IH as [|t entries Ht _ IHentries]; intros w1 Hin Hfault; simpl in *.
    { by apply elem_of_nil in Hin. }
    pose proof (walk_add_fault t (Join path (entry_name t)) w1) as Hkeep.
    specialize (Ht (Join path (entry_name t)) w1 p).
    destruct (walk (Join path (entry_name t)) t w1) as [[e|] w2]; [by eexists|].
    apply elem_of_app in Hin as [Hin|Hin].
    + destruct (Ht Hin Hfault) as [? [=]].
    + apply IHentries; [done|]. simpl in Hkeep. by rewrite Hkeep.
Qed.

(** C7: at start-up, a directory of the target tree that the watcher cannot
    register makes the walk return an error, and [main] logs it at fatal
    level and leaves the process with exit code 1 without ever starting the
    loop; in the running loop, a new directory that the watcher cannot
    register costs one error line, the watch set is left as it was, and the
    loop goes on with the rest of the feed. *)
Theorem C7_registration_failure_fatal_at_startup_only :
  (∀ (prog directory logFilePath eventsArg allowedExtFilePath : string) (boot : Boot)
     (w : World) (p : string),
     p ∈ dir_paths directory (target_tree boot directory) →
     is_Some (add_fault w !! p) →
     is_Some (addWatchRecursive directory (target_tree boot directory) w).1
     ∧ ∃ w' msg, main [prog; directory; logFilePath; eventsArg; allowedExtFilePath] boot w
                 = Exited 1 w'
                 ∧ last (trace w') = Some (Logged FatalLevel msg))
  ∧ (∀ (events : list string) (allowed : AllowedExtensions) (event : Event)
       (rest : list Recv) (w : World) (e : Errno),
       Has (Op event) Create = true →
       os_Stat (Name event) (logAndEnforce events allowed event w) = Some Directory →
       add_fault w !! Name event = Some e →
       let w1 := logAndEnforce events allowed event w in
       let w2 := Errorf ("Failed to add new directory to watcher: " +:+ strerror e) w1 in
       processEvents events allowed (FromEvents event :: rest) w
       = processEvents events allowed rest w2
       ∧ watched w2 = watched w).
Proof.
  split.
  - intros prog directory logFilePath eventsArg allowedExtFilePath boot w p Hin Hfault.
    split; [exact (walk_refused _ directory w p Hin Hfault)|].
    unfold main, addWatchRecursive.
    set (w0 := match log_file_fault boot with Some _ => _ | None => _ end).
    assert (is_Some (add_fault w0 !! p)) as Hfault0.
    { unfold w0, os_OpenFile_create. destruct (log_file_fault boot); [done|].
      by destruct (fs w !! logFilePath). }
    pose proof (walk_refused _ directory w0 p Hin Hfault0) as Hwalk.
    unfold Fatalf, emit.
    destruct (loadAllowedExtensions _) as [allowed|err];
      [destruct (new_watcher_fault boot) as [err|];
       [|destruct (walk directory (target_tree boot directory) w0) as [[err|] w1];
         [|by destruct Hwalk]]|];
      eexists _, _; (split; [reflexivity|]); simpl; apply last_snoc.
  - intros events allowed event rest w e Hh Hstat Hadd w1 w2. simpl.
    unfold handleEvent.
    destruct (logAndEnforce_frame events allowed event w) as (Hw & Haf & _).
    rewrite (addNewDirectory_refused event _ e) by (by rewrite ?Haf).
    done.
Qed.

(** The theorem at work: the watcher out of watches for [/w/data], at
    start-up and in the running loop. *)
Lemma C7_witness :
  (∃ w' msg, main ["birdeye"; "/w"; "monitor.log"; "create,write"; "allowed.txt"]
               demo_boot demo_full = Exited 1 w'
             ∧ last (trace w') = Some (Logged FatalLevel msg))
  ∧ processEvents ["write"] {[ ".txt" ]} [FromEvents (mkEvent "/w/data" Create)] demo_full
    = (Waiting,
       Errorf "Failed to add new directory to watcher: no space left on device" demo_full).
Proof.
  destruct C7_registration_failure_fatal_at_startup_only as [Hstart Hrun].
  split.
  - apply (Hstart "birdeye" "/w" "monitor.log" "create,write" "allowed.txt"
             demo_boot demo_full "/w/data").
    + vm_compute. apply list_elem_of_further, list_elem_of_here.
    + vm_compute. by eexists.
  - destruct (Hrun ["write"] {[ ".txt" ]} (mkEvent "/w/data" Create) [] demo_full ENOSPC)
      as [Heq _]; [by vm_compute..|].
    rewrite Heq. by vm_compute.
Defined.

(** ** The watch set *)







(** * Further properties of the code *)

(** ** Trimming and case folding *)

Lemma append_cons (c : ascii) (s t : string) : String c s +:+ t = String c (s +:+ t).
Proof. reflexivity. Qed.

Lemma append_nil_l (s : string) : "" +:+ s = s.
Proof. reflexivity. Qed.

Lemma TrimRight_cons (c : ascii) (r : string) :
  TrimRight (String c r)
  = if decide (TrimRight r = "")
    then (if is_space c then "" else String c "")
    else String c (TrimRight r).
Proof. simpl. destruct (TrimRight r); by case_decide. Qed.

Lemma TrimRight_snoc_space (c : ascii) (s : string) :
  is_space c = true → TrimRight (s +:+ String c "") = TrimRight s.
Proof.
  intros Hc. induction s as [|x s IH].
  - rewrite append_nil_l. cbn [TrimRight]. by rewrite Hc.
  - rewrite append_cons, !TrimRight_cons, IH. done.
Qed.

Lemma TrimSpace_snoc_space (c : ascii) (s : string) :
  is_space c = true → TrimSpace (s +:+ String c "") = TrimSpace s.
Proof.
  intros Hc. unfold TrimSpace. induction s as [|x s IH].
  - rewrite append_nil_l. cbn [TrimLeft TrimRight]. by rewrite Hc.
  - rewrite append_cons. cbn [TrimLeft]. destruct (is_space x) eqn:Hx; [done|].
    rewrite <- append_cons. by apply TrimRight_snoc_space.
Qed.

Lemma dropCR_spec (l : string) :
  dropCR l = l ∨ l = dropCR l +:+ String "013" "".
Proof.
  induction l as [|c l IH]; [by left|].
  destruct l as [|c' l'].
  - simpl. destruct (N.eqb_spec (N_of_ascii c) 13) as [Heq|Hne]; [|by left].
    right. rewrite append_nil_l. f_equal.
    rewrite <- (ascii_N_embedding c), Heq. done.
  - change (dropCR (String c (String c' l'))) with (String c (dropCR (String c' l'))).
    destruct IH as [->|IH]; [by left|]. right. rewrite append_cons. by f_equal.
Qed.

(** A carriage return before the line feed is white space to the trimmer,
    so dropping it first changes nothing. *)
Lemma TrimSpace_dropCR (l : string) : TrimSpace (dropCR l) = TrimSpace l.
Proof.
  destruct (dropCR_spec l) as [->|Heq]; [done|].
  rewrite Heq at 2. by rewrite TrimSpace_snoc_space.
Qed.

Lemma TrimLeft_head (s : string) :
  TrimLeft s = "" ∨ ∃ c r, TrimLeft s = String c r ∧ is_space c = false.
Proof.
  induction s as [|c s IH]; [by left|].
  cbn [TrimLeft]. destruct (is_space c) eqn:Hc; [done|]. right. by exists c, s.
Qed.

Lemma TrimRight_idem (s : string) : TrimRight (TrimRight s) = TrimRight s.
Proof.
  induction s as [|c s IH]; [done|].
  rewrite TrimRight_cons. case_decide as Hr.
  - destruct (is_space c) eqn:Hc; [done|]. cbn [TrimRight]. by rewrite Hc.
  - rewrite TrimRight_cons, IH. by case_decide.
Qed.

Lemma TrimLeft_TrimRight_head (c : ascii) (r : string) :
  is_space c = false → TrimLeft (TrimRight (String c r)) = TrimRight (String c r).
Proof.
  intros Hc. rewrite TrimRight_cons. case_decide; rewrite ?Hc; cbn [TrimLeft]; by rewrite Hc.
Qed.

(** Trimming twice is trimming once: what the trimmer returns has no white
    space left at either end. *)
Lemma TrimSpace_idem (s : string) : TrimSpace (TrimSpace s) = TrimSpace s.
Proof.
  unfold TrimSpace.
  destruct (TrimLeft_head s) as [->|(c & r & -> & Hc)]; [done|].
  rewrite TrimLeft_TrimRight_head by done. apply TrimRight_idem.
Qed.

Lemma lower_byte_idem (c : ascii) : lower_byte (lower_byte c) = lower_byte c.
Proof. destruct c as [[] [] [] [] [] [] [] []]; reflexivity. Qed.

Lemma ToLower_idem (s : string) : ToLower (ToLower s) = ToLower s.
Proof. induction s as [|c s IH]; simpl; [done|]. by rewrite lower_byte_idem, IH. Qed.

(** ** More on the allowlist *)

Lemma elem_of_loaded_raw (content : string) (allowed : AllowedExtensions) (x : string) :
  loadAllowedExtensions (Ok content) = Ok allowed →
  x ∈ allowed ↔ x ≠ "" ∧ ∃ l, l ∈ raw_lines content "" ∧ TrimSpace l = x.
Proof.
  unfold loadAllowedExtensions. destruct (existsb too_long _); [done|]. intros [= <-].
  rewrite elem_of_load. split.
  - intros [[]%not_elem_of_empty|(Hx & l & (l0 & -> & Hl0)%list_elem_of_fmap & Hl)].
    split; [done|]. exists l0. split; [done|]. by rewrite <- TrimSpace_dropCR.
  - intros (Hx & l & Hin & Hl). right. split; [done|].
    exists (dropCR l). split; [|by rewrite TrimSpace_dropCR].
    apply list_elem_of_fmap. by exists l.
Qed.

(** X1: every entry of a loaded allowlist is non-empty and has no white
    space at either end (trimming it again changes nothing). *)
Theorem X1_loaded_entries_are_trimmed
    (file : result string) (allowed : AllowedExtensions) (x : string) :
  loadAllowedExtensions file = Ok allowed →
  x ∈ allowed →
  x ≠ "" ∧ TrimSpace x = x.
Proof.
  intros Hload Hin. destruct file as [content|]; [|done].
  apply (elem_of_loaded_raw content allowed x Hload) in Hin as (Hx & l & _ & <-).
  split; [done|]. apply TrimSpace_idem.
Qed.

Lemma X1_witness : ".TXT" ≠ "" ∧ TrimSpace ".TXT" = ".TXT".
Proof.
  apply (X1_loaded_entries_are_trimmed
           (Ok ("  .TXT " +:+ String "013" (String "010" (String "010" ".md"))))
           {[ ".TXT"; ".md" ]} ".TXT"); by vm_compute.
Defined.

(** X2: the loaded allowlist is exactly the set of the trimmed, non-blank
    lines of the file, whether the lines end in a line feed or in a
    carriage return and a line feed. *)
Theorem X2_loaded_set_is_trimmed_lines
    (content : string) (allowed : AllowedExtensions) (x : string) :
  loadAllowedExtensions (Ok content) = Ok allowed →
  x ∈ allowed ↔ x ≠ "" ∧ ∃ l, l ∈ raw_lines content "" ∧ TrimSpace l = x.
Proof. apply elem_of_loaded_raw. Qed.

Lemma X2_witness :
  ".md" ∈ ({[ ".TXT"; ".md" ]} : AllowedExtensions)
  ↔ ".md" ≠ "" ∧ ∃ l, l ∈ raw_lines (" .TXT" +:+ String "013" (String "010" ".md ")) ""
                      ∧ TrimSpace l = ".md".
Proof.
  apply (X2_loaded_set_is_trimmed_lines
           (" .TXT" +:+ String "013" (String "010" ".md ")) {[ ".TXT"; ".md" ]} ".md").
  by vm_compute.
Defined.

(** X3: two allowlist files that hold the same lines, in any order and any
    number of times, load as the same set. *)
Theorem X3_line_order_and_repeats_do_not_matter
    (content1 content2 : string) (allowed1 allowed2 : AllowedExtensions) :
  loadAllowedExtensions (Ok content1) = Ok allowed1 →
  loadAllowedExtensions (Ok content2) = Ok allowed2 →
  (∀ l, l ∈ raw_lines content1 "" ↔ l ∈ raw_lines content2 "") →
  allowed1 = allowed2.
Proof.
  intros H1 H2 Hsame. apply set_eq. intros x.
  rewrite (elem_of_loaded_raw _ _ x H1), (elem_of_loaded_raw _ _ x H2).
  split; intros (Hx & l & Hin & Hl); (split; [done|]); exists l; (split; [|done]);
    by apply Hsame.
Qed.

Lemma X3_witness :
  ({[ ".txt"; ".md" ]} : AllowedExtensions) = {[ ".md"; ".txt" ]}.
Proof.
  apply (X3_line_order_and_repeats_do_not_matter
           (".txt" +:+ String "010" (".md" +:+ String "010" ".txt"))
           (".md" +:+ String "010" ".txt")); [by vm_compute..|].
  intros l. change (l ∈ [".txt"; ".md"; ".txt"] ↔ l ∈ [".md"; ".txt"]).
  rewrite !elem_of_cons, !elem_of_nil. tauto.
Defined.

(** X4: an allowlist file whose lines are all blank, none of them too
    long for the scanner, loads without error as the empty set, and then no
    file name at all passes the membership test. *)
Theorem X4_blank_allowlist_allows_nothing (content fileName : string) :
  (∀ l, l ∈ raw_lines content "" → TrimSpace l = "" ∧ too_long l = false) →
  loadAllowedExtensions (Ok content) = Ok ∅
  ∧ isAllowedExtension fileName ∅ = false.
Proof.
  intros Hblank. split.
  - unfold loadAllowedExtensions.
    assert (existsb too_long (raw_lines content "") = false) as ->.
    { destruct (existsb too_long (raw_lines content "")) eqn:Hlong; [|done].
      apply existsb_exists in Hlong as (l & Hin%list_elem_of_In & Hl).
      destruct (Hblank l Hin) as [_ Hshort]. congruence. }
    f_equal. apply set_eq. intros x. rewrite elem_of_load. split.
    + intros [Hx|(Hx & l & (l0 & -> & Hin)%list_elem_of_fmap & Hl)]; [done|].
      rewrite TrimSpace_dropCR in Hl. destruct (Hblank l0 Hin) as [Hl0 _]. congruence.
    + by intros []%not_elem_of_empty.
  - unfold isAllowedExtension. apply bool_decide_eq_false. apply not_elem_of_empty.
Qed.

Lemma X4_witness :
  loadAllowedExtensions (Ok ("  " +:+ String "010" (String "009" ""))) = Ok ∅
  ∧ isAllowedExtension "/w/notes.txt" ∅ = false.
Proof.
  apply (X4_blank_allowlist_allows_nothing ("  " +:+ String "010" (String "009" ""))).
  intros l. change (l ∈ ["  "; String "009" ""] → TrimSpace l = "" ∧ too_long l = false).
  rewrite !elem_of_cons, elem_of_nil. intros [->|[->|[]]]; by vm_compute.
Defined.

(** X5: when every entry of the set is written in lower case, the
    membership test is insensitive to letter case: a name passes exactly
    when its extension equals some entry up to case. *)
Theorem X5_lower_case_entries_match_any_case
    (allowed : AllowedExtensions) (fileName : string) :
  (∀ x, x ∈ allowed → ToLower x = x) →
  isAllowedExtension fileName allowed = true
  ↔ ∃ x, x ∈ allowed ∧ ToLower x = ToLower (Ext fileName).
Proof.
  intros Hlow. unfold isAllowedExtension. rewrite bool_decide_eq_true. split.
  - intros Hin. exists (ToLower (Ext fileName)). split; [done|]. by apply Hlow.
  - intros (x & Hin & Hx). rewrite <- Hx, (Hlow x Hin). done.
Qed.

Lemma X5_witness :
  isAllowedExtension "/w/NOTES.TxT" {[ ".txt"; ".md" ]} = true
  ↔ ∃ x, x ∈ ({[ ".txt"; ".md" ]} : AllowedExtensions)
         ∧ ToLower x = ToLower (Ext "/w/NOTES.TxT").
Proof.
  apply (X5_lower_case_entries_match_any_case {[ ".txt"; ".md" ]} "/w/NOTES.TxT").
  intros x [->%elem_of_singleton| ->%elem_of_singleton]%elem_of_union; reflexivity.
Defined.

(** X6: an entry that holds an upper-case letter is dead: no file name ever
    matches it, so taking it out of the set changes no verdict. *)
Theorem X6_entry_with_upper_case_is_dead
    (allowed : AllowedExtensions) (x fileName : string) :
  ToLower x ≠ x →
  isAllowedExtension fileName (allowed ∖ {[ x ]}) = isAllowedExtension fileName allowed.
Proof.
  intros Hup. unfold isAllowedExtension. apply bool_decide_ext.
  rewrite elem_of_difference, not_elem_of_singleton. split; [by intros [? _]|].
  intros Hin. split; [done|]. intros <-. apply Hup. apply ToLower_idem.
Qed.

Lemma X6_witness :
  isAllowedExtension "/w/a.txt" ({[ ".TXT"; ".md" ]} ∖ {[ ".TXT" ]})
  = isAllowedExtension "/w/a.txt" {[ ".TXT"; ".md" ]}.
Proof.
  apply (X6_entry_with_upper_case_is_dead {[ ".TXT"; ".md" ]} ".TXT" "/w/a.txt").
  by vm_compute.
Defined.

(** ** More on the event filter *)

Lemma configured_ext (a b : list string) (k : Kind) :
  (∀ e, e ∈ a ↔ e ∈ b) → configured a k ↔ configured b k.
Proof.
  intros Hsame. unfold configured.
  split; intros (e & Hin & Hk); exists e; (split; [|done]); by apply Hsame.
Qed.

Lemma containsEvent_append (a b : list string) (event : Event) :
  containsEvent (a ++ b) event = containsEvent a event || containsEvent b event.
Proof.
  induction a as [|e a IH]; [done|].
  simpl. rewrite IH. repeat case_match; done.
Qed.

Lemma Has_low_bits (op : Z) (k : Kind) :
  Has (Z.land op 31) (kind_mask k) = Has op (kind_mask k).
Proof.
  unfold Has. rewrite <- Z.land_assoc.
  replace (Z.land 31 (kind_mask k)) with (kind_mask k); [done|]. by destruct k.
Qed.

(** X7: the order of the tokens of the filter, and how often each one is
    written, make no difference to whether an event is of interest. *)
Theorem X7_filter_is_a_set_of_tokens (a b : list string) (event : Event) :
  (∀ e, e ∈ a ↔ e ∈ b) →
  containsEvent a event = containsEvent b event.
Proof.
  intros Hsame. apply eq_true_iff_eq. rewrite !containsEvent_spec.
  split; intros (k & Hc & Hk); exists k; (split; [|done]);
    by apply (configured_ext a b k Hsame).
Qed.

Lemma X7_witness :
  containsEvent ["write"; "create"; "write"] (mkEvent "/w/a" Create)
  = containsEvent ["create"; "write"] (mkEvent "/w/a" Create).
Proof.
  apply (X7_filter_is_a_set_of_tokens ["write"; "create"; "write"] ["create"; "write"]).
  intros e. rewrite !elem_of_cons, !elem_of_nil. tauto.
Defined.

(** X8: a filter made of two lists of tokens matches an event exactly when
    one of the two lists does; adding tokens never loses a match. *)
Theorem X8_filter_of_two_lists (a b : list string) (event : Event) :
  containsEvent (a ++ b) event = containsEvent a event || containsEvent b event.
Proof. apply containsEvent_append. Qed.

(** X9: only the five bits Create, Write, Remove, Rename and Chmod of the
    operation mask are looked at; an event that carries none of them matches
    no filter. *)
Theorem X9_only_five_bits_count :
  (∀ (events : list string) (name : string) (op : Z),
     containsEvent events (mkEvent name op)
     = containsEvent events (mkEvent name (Z.land op 31)))
  ∧ (∀ (events : list string) (name : string) (op : Z),
       Z.land op 31 = 0 → containsEvent events (mkEvent name op) = false).
Proof.
  assert (∀ events name op,
            containsEvent events (mkEvent name op)
            = containsEvent events (mkEvent name (Z.land op 31))) as Hlow.
  { intros events name op. apply eq_true_iff_eq. rewrite !containsEvent_spec. simpl.
    split; intros (k & Hc & Hk); exists k; (split; [done|]).
    - by rewrite Has_low_bits.
    - by rewrite <- Has_low_bits. }
  split; [exact Hlow|].
  intros events name op Hzero. rewrite Hlow, Hzero.
  destruct (containsEvent events (mkEvent name 0)) eqn:Hc; [|done].
  apply containsEvent_spec in Hc as (k & _ & Hk). by destruct k.
Qed.

Lemma X9_witness : containsEvent ["create"; "chmod"] (mkEvent "/w/a" 32) = false.
Proof.
  destruct X9_only_five_bits_count as [_ Hnone].
  apply (Hnone ["create"; "chmod"] "/w/a" 32). reflexivity.
Defined.

(** X10: a token that spells none of the five kinds, letter case aside, is
    passed over without notice, wherever it stands in the filter; white
    space around a token is not trimmed, so [" write"] is such a token. *)
Theorem X10_unknown_tokens_are_skipped
    (before after : list string) (e : string) (event : Event) :
  (∀ k, ToLower e ≠ kind_name k) →
  containsEvent (before ++ e :: after) event = containsEvent (before ++ after) event.
Proof.
  intros Hunknown. rewrite !containsEvent_append. f_equal.
  simpl.
  destruct (String.eqb_spec (ToLower e) "create"); [by destruct (Hunknown KCreate)|].
  destruct (String.eqb_spec (ToLower e) "write"); [by destruct (Hunknown KWrite)|].
  destruct (String.eqb_spec (ToLower e) "remove"); [by destruct (Hunknown KRemove)|].
  destruct (String.eqb_spec (ToLower e) "rename"); [by destruct (Hunknown KRename)|].
  destruct (String.eqb_spec (ToLower e) "chmod"); [by destruct (Hunknown KChmod)|].
  done.
Qed.

Lemma X10_witness :
  containsEvent (Split "create, write" ",") (mkEvent "/w/a" Write)
  = containsEvent ["create"] (mkEvent "/w/a" Write).
Proof.
  apply (X10_unknown_tokens_are_skipped ["create"] [] " write" (mkEvent "/w/a" Write)).
  intros k. by destruct k.
Defined.

(** ** More on the dispatcher *)

(** X11: an event that does not carry Create (a write, a removal, a rename,
    a mode change) is at most logged: whatever the filter and the allowlist,
    handling it leaves the file system, the watch set and the notifier
    alone. *)
Theorem X11_only_create_is_enforced
    (events : list string) (allowed : AllowedExtensions) (event : Event) (w : World) :
  Has (Op event) Create = false →
  handleEvent events allowed event w
  = if containsEvent events event
    then Infof ("Event: " +:+ Op_String (Op event) +:+ " on file: " +:+ Name event) w
    else w.
Proof.
  intros Hh. unfold handleEvent, addNewDirectory, logAndEnforce.
  rewrite Hh. by destruct (containsEvent events event).
Qed.

Lemma X11_witness :
  handleEvent ["rename"] {[ ".txt" ]} (mkEvent "/w/payload.exe" Rename) demo
  = Infof "Event: RENAME on file: /w/payload.exe" demo.
Proof.
  apply (X11_only_create_is_enforced ["rename"] {[ ".txt" ]}
           (mkEvent "/w/payload.exe" Rename) demo).
  reflexivity.
Defined.


Lemma os_Remove_full_dir (name : string) (w : World) :
  fs w !! name = Some Directory →
  has_entries (fs w) name = true →
  remove_fault w !! name = None →
  os_Remove name w = (Some (PathError "remove" name (SyscallErrno ENOTEMPTY)), w).
Proof. unfold os_Remove. by intros -> -> ->. Qed.



(** X13: a new directory that already has entries, and whose name fails
    the membership test under a matching filter, survives: the removal fails
    with ENOTEMPTY, which is logged at error level, nobody is notified, and
    the directory is then added to the watch set. *)
Theorem X13_new_non_empty_directory_is_kept
    (events : list string) (allowed : AllowedExtensions) (event : Event) (w : World) :
  containsEvent events event = true →
  Has (Op event) Create = true →
  isAllowedExtension (Name event) allowed = false →
  fs w !! Name event = Some Directory →
  has_entries (fs w) (Name event) = true →
  remove_fault w !! Name event = None →
  add_fault w !! Name event = None →
  let w' := handleEvent events allowed event w in
  fs w' = fs w
  ∧ watched w' = {[ Name event ]} ∪ watched w
  ∧ notifications (trace w') = notifications (trace w)
  ∧ logs_at ErrorLevel (trace w')
    = logs_at ErrorLevel (trace w)
      ++ ["Failed to handle disallowed file: could not remove disallowed file: remove "
          +:+ Name event +:+ ": directory not empty"].
Proof.
  intros Hc Hh Hal Hdir Hfull Hfault Hadd w'.
  pose proof (os_Remove_full_dir _ _ Hdir Hfull Hfault) as Hos.
  assert ((os_Remove (Name event) w).1
          = Some (PathError "remove" (Name event) (SyscallErrno ENOTEMPTY))) as Hrm.
  { by rewrite Hos. }
  destruct (logAndEnforce_remove_fails events allowed event w _ Hc Hh Hal Hrm)
    as [Hfs Htr].
  destruct (logAndEnforce_frame events allowed event w) as (Hw & Haf & _).
  unfold w', handleEvent.
  rewrite addNewDirectory_registers; [|done|by unfold os_Stat; rewrite Hfs|by rewrite Haf].
  simpl. rewrite Hfs, Hw, Htr. split; [done|]. split; [done|].
  unfold notifications, logs_at. rewrite !omap_app. simpl. rewrite !app_nil_r.
  split; [done|]. do 2 f_equal.
Qed.

Lemma X13_witness :
  let w' := handleEvent ["create"] {[ ".txt" ]} (mkEvent "/w/data.d" Create) demo_busy in
  fs w' = fs demo_busy ∧ watched w' = {[ "/w/data.d" ]} ∪ watched demo_busy.
Proof.
  destruct (X13_new_non_empty_directory_is_kept ["create"] {[ ".txt" ]}
              (mkEvent "/w/data.d" Create) demo_busy) as (H1 & H2 & _); [by vm_compute..|].
  split; [exact H1|exact H2].
Defined.

(** X14: [handleDisallowedFile] returns an error in two cases only: the
    removal failed with something else than ENOENT (nothing was removed), or
    the removal went through and the notification could not be delivered;
    in the second case the file stays removed. *)
Theorem X14_handler_result (fileName : string) (w : World) :
  let r := handleDisallowedFile fileName w in
  match (os_Remove fileName w).1 with
  | Some err =>
      r = (if errors_Is err ENOENT then None
           else Some (Errorf_w "could not remove disallowed file: " err), w)
  | None =>
      r.1 = (Errorf_w "failed to send notification: " <$> notify_fault w)
      ∧ fs r.2 = delete fileName (fs w)
      ∧ removals (trace r.2) = removals (trace w) ++ [fileName]
      ∧ notifications (trace r.2) = notifications (trace w) ++ [alert fileName]
  end.
Proof.
  unfold handleDisallowedFile, beeep_Notify.
  destruct (os_Remove fileName w) as [[err|] w1] eqn:Hos; simpl.
  - apply os_Remove_fails in Hos as ->. by destruct (errors_Is err ENOENT).
  - assert (w1 = emit (Removed fileName) (set_fs (delete fileName (fs w)) w)) as ->.
    { unfold os_Remove in Hos. repeat case_match; congruence. }
    simpl. destruct (notify_fault w); simpl; trace_simpl; simpl; trace_simpl; done.
Qed.

(** ** The dispatcher along a feed *)

(** What one event adds to the removals and to the notifications. *)
Lemma handleEvent_effects (events : list string) (allowed : AllowedExtensions)
    (event : Event) (w : World) :
  let w' := handleEvent events allowed event w in
  let new := if enforced events allowed event
             then match (os_Remove (Name event) w).1 with
                  | None => [Name event]
                  | Some _ => []
                  end
             else [] in
  removals (trace w') = removals (trace w) ++ new
  ∧ notifications (trace w') = notifications (trace w) ++ (alert <$> new).
Proof.
  unfold handleEvent.
  destruct (addNewDirectory_quiet event (logAndEnforce events allowed event w))
    as (_ & _ & _ & _ & -> & -> & _).
  unfold enforced.
  destruct (containsEvent events event) eqn:Hc;
    [|rewrite logAndEnforce_unmatched by done; simpl; by rewrite !app_nil_r].
  destruct (Has (Op event) Create) eqn:Hh;
    [|unfold logAndEnforce, Infof; rewrite Hc, Hh; simpl; trace_simpl; done].
  destruct (isAllowedExtension (Name event) allowed) eqn:Hal;
    [unfold logAndEnforce, Infof; rewrite Hc, Hh, Hal; simpl; trace_simpl; done|].
  simpl. destruct ((os_Remove (Name event) w).1) as [err|] eqn:Hrm.
  - destruct (logAndEnforce_remove_fails events allowed event w err Hc Hh Hal Hrm)
      as [_ ->].
    unfold removals, notifications. rewrite !omap_app. simpl.
    by destruct (errors_Is err ENOENT).
  - destruct (logAndEnforce_removes events allowed event w Hc Hh Hal Hrm) as [_ ->].
    unfold removals, notifications, alert. rewrite !omap_app. simpl.
    by destruct (notify_fault w).
Qed.

Lemma processEvents_effects (events : list string) (allowed : AllowedExtensions)
    (feed : list Recv) :
  ∀ w, ∃ new,
    removals (trace (processEvents events allowed feed w).2) = removals (trace w) ++ new
    ∧ notifications (trace (processEvents events allowed feed w).2)
      = notifications (trace w) ++ (alert <$> new)
    ∧ ∀ p, p ∈ new →
        ∃ event, event ∈ feed_events feed ∧ Name event = p
                 ∧ enforced events allowed event = true.
Proof.
  induction feed as [|item feed IH]; intros w.
  { exists []. simpl. rewrite !app_nil_r. split; [done|]. split; [done|].
    by intros p []%elem_of_nil. }
  destruct item as [event| |err| |fs' rf af nf]; simpl.
  - destruct (IH (handleEvent events allowed event w)) as (new & Hr & Hn & Hnew).
    pose proof (handleEvent_effects events allowed event w) as Hstep.
    cbv zeta in Hstep.
    set (new0 := if enforced events allowed event
                 then match (os_Remove (Name event) w).1 with
                      | None => [Name event]
                      | Some _ => []
                      end
                 else []) in Hstep.
    destruct Hstep as [Hr0 Hn0].
    exists (new0 ++ new). rewrite Hr, Hn, Hr0, Hn0, fmap_app, <- !app_assoc.
    split; [done|]. split; [done|].
    intros p [Hp|Hp]%elem_of_app.
    + exists event. split; [apply list_elem_of_here|]. unfold new0 in Hp.
      destruct (enforced events allowed event); [|by apply elem_of_nil in Hp].
      destruct ((os_Remove (Name event) w).1); [by apply elem_of_nil in Hp|].
      by apply list_elem_of_singleton in Hp as ->.
    + destruct (Hnew p Hp) as (ev & Hin & Hev). exists ev.
      split; [by apply list_elem_of_further|done].
  - exists []. rewrite !app_nil_r. split; [done|]. split; [done|].
    by intros p []%elem_of_nil.
  - destruct (IH (Errorf ("Watcher error: " +:+ Error err) w)) as (new & -> & -> & Hnew).
    exists new. unfold Errorf. simpl. trace_simpl. done.
  - exists []. rewrite !app_nil_r. split; [done|]. split; [done|].
    by intros p []%elem_of_nil.
  - destruct (IH (outside fs' rf af nf w)) as (new & -> & -> & Hnew).
    exists new. done.
Qed.

(** X15: along any feed the dispatcher removes nothing but targets of
    Create events of that feed which the filter matches and whose name
    fails the membership test of [isAllowedExtension]; a path that passes
    that test is never removed. *)
Theorem X15_only_enforced_targets_are_removed
    (events : list string) (allowed : AllowedExtensions) (feed : list Recv) (w : World)
    (p : string) :
  p ∈ removals (trace (processEvents events allowed feed w).2) →
  p ∈ removals (trace w)
  ∨ (isAllowedExtension p allowed = false
     ∧ ∃ event, event ∈ feed_events feed ∧ Name event = p
                ∧ Has (Op event) Create = true ∧ containsEvent events event = true).
Proof.
  destruct (processEvents_effects events allowed feed w) as (new & -> & _ & Hnew).
  intros [Hp|Hp]%elem_of_app; [by left|]. right.
  destruct (Hnew p Hp) as (event & Hin & <- & Henf).
  unfold enforced in Henf.
  apply andb_true_iff in Henf as [[Hc Hh]%andb_true_iff Hal%negb_true_iff].
  split; [done|]. by exists event.
Qed.

Lemma X15_witness :
  "/w/payload.exe" ∈ removals (trace demo)
  ∨ (isAllowedExtension "/w/payload.exe" {[ ".txt" ]} = false
     ∧ ∃ event, event ∈ feed_events [FromEvents (mkEvent "/w/a.txt" Create);
                                     FromEvents (mkEvent "/w/payload.exe" Create)]
                ∧ Name event = "/w/payload.exe"
                ∧ Has (Op event) Create = true ∧ containsEvent ["create"] event = true).
Proof.
  apply (X15_only_enforced_targets_are_removed ["create"] {[ ".txt" ]}
           [FromEvents (mkEvent "/w/a.txt" Create);
            FromEvents (mkEvent "/w/payload.exe" Create)] demo "/w/payload.exe").
  assert (removals (trace (processEvents ["create"] {[ ".txt" ]}
            [FromEvents (mkEvent "/w/a.txt" Create);
             FromEvents (mkEvent "/w/payload.exe" Create)] demo).2)
          = ["/w/payload.exe"]) as -> by (by vm_compute).
  apply list_elem_of_here.
Defined.

(** X16: removals and notifications stay paired along any feed: if so far
    every removed path has its alert, in the same order, and no other
    notification was sent, the same holds afterwards. *)
Theorem X16_one_alert_per_removal
    (events : list string) (allowed : AllowedExtensions) (feed : list Recv) (w : World) :
  notifications (trace w) = alert <$> removals (trace w) →
  let w' := (processEvents events allowed feed w).2 in
  notifications (trace w') = alert <$> removals (trace w').
Proof.
  intros Hpaired.
  destruct (processEvents_effects events allowed feed w) as (new & Hr & Hn & _).
  simpl. rewrite Hr, Hn, Hpaired, fmap_app. done.
Qed.

Lemma X16_witness :
  let w' := (processEvents ["create"] {[ ".txt" ]}
               [FromEvents (mkEvent "/w/README" Create);
                FromEvents (mkEvent "/w/payload.exe" Create)] demo).2 in
  notifications (trace w') = alert <$> removals (trace w').
Proof.
  apply (X16_one_alert_per_removal ["create"] {[ ".txt" ]}
           [FromEvents (mkEvent "/w/README" Create);
            FromEvents (mkEvent "/w/payload.exe" Create)] demo).
  reflexivity.
Defined.

(** ** More on the initial walk *)

Lemma register_all_facts (ps : list string) :
  ∀ w, fs (register_all w ps) = fs w
       ∧ add_fault (register_all w ps) = add_fault w
       ∧ watched (register_all w ps) = list_to_set ps ∪ watched w
       ∧ registrations (trace (register_all w ps)) = registrations (trace w) ++ ps
       ∧ removals (trace (register_all w ps)) = removals (trace w).
Proof.
  induction ps as [|p ps IH]; intros w.
  - unfold register_all. simpl. rewrite app_nil_r, (left_id_L ∅ (∪)). done.
  - change (register_all w (p :: ps)) with (register_all (register w p) ps).
    destruct (IH (register w p)) as (-> & -> & -> & -> & ->).
    simpl. unfold registrations, removals. rewrite !omap_app. simpl.
    rewrite app_nil_r, <- app_assoc, (assoc_L (∪)), (comm_L (∪) (list_to_set ps)). done.
Qed.

Lemma walkFn_directory (path : string) (readErr : option error) (w : World) :
  walkFn path (Some Directory) readErr w
  = match readErr with
    | Some e => (Some e, w)
    | None =>
        match add_fault w !! path with
        | Some e =>
            (Some (Errorf_w "could not add directory to watcher: " (SyscallErrno e)), w)
        | None => (None, register w path)
        end
    end.
Proof. unfold walkFn, watcher_Add. repeat case_match; by simplify_eq. Qed.

(** Whatever happens, the walk has registered the directories of the tree
    in walk order up to some point, and all of them when it returns no
    error. *)
Lemma walk_prefix (t : FsTree) :
  ∀ path w, ∃ k,
    (k ≤ length (dir_paths path t))%nat
    ∧ (walk path t w).2 = register_all w (take k (dir_paths path t))
    ∧ ((walk path t w).1 = None → k = length (dir_paths path t)).
Proof.
  induction t as [n|n err|n readErr entries IH] using FsTree_nested_ind; intros path w.
  - by exists 0%nat.
  - by exists 0%nat.
  - simpl walk. rewrite walkFn_directory. simpl dir_paths.
    destruct readErr as [e|]; [exists 0%nat; simpl; split; [lia|done]|].
    destruct (add_fault w !! path) as [e|]; [exists 0%nat; simpl; split; [lia|done]|].
    cut (∀ w1, ∃ k',
           (k' ≤ length (flat_map (λ t', dir_paths (Join path (entry_name t')) t')
                                  entries))%nat
           ∧ (walk_entries walk path entries w1).2
             = register_all w1
                 (take k' (flat_map (λ t', dir_paths (Join path (entry_name t')) t') entries))
           ∧ ((walk_entries walk path entries w1).1 = None →
              k' = length (flat_map (λ t', dir_paths (Join path (entry_name t')) t')
                             entries))).
    { intros Hloop. destruct (Hloop (register w path)) as (k' & Hle & Heq & Hall).
      exists (S k'). simpl. split; [lia|]. split; [done|]. intros Hnone. by rewrite Hall. }
    induction IH as [|t entries Ht _ IHentries]; intros w1.
    { by exists 0%nat. }
    simpl.
    destruct (Ht (Join path (entry_name t)) w1) as (k1 & Hle1 & Heq1 & Hall1).
    destruct (walk (Join path (entry_name t)) t w1) as [[e|] w2]; simpl in *.
    + exists k1. rewrite length_app, take_app_le by done. split; [lia|done].
    + specialize (Hall1 eq_refl). subst k1.
      rewrite take_ge in Heq1 by done. subst w2.
      destruct (IHentries (register_all w1 (dir_paths (Join path (entry_name t)) t)))
        as (k2 & Hle2 & Heq2 & Hall2).
      exists (length (dir_paths (Join path (entry_name t)) t) + k2)%nat.
      rewrite length_app, take_app_add. split; [lia|]. split.
      * rewrite Heq2. unfold register_all. by rewrite foldl_app.
      * intros Hnone. by rewrite (Hall2 Hnone).
Qed.

Lemma walk_unreadable (t : FsTree) :
  ∀ path w, readable t = false → is_Some (walk path t w).1.
Proof.
  induction t as [n|n err|n readErr entries IH] using FsTree_nested_ind;
    intros path w Hbad.
  - done.
  - by eexists.
  - simpl walk. rewrite walkFn_directory. simpl in Hbad.
    destruct readErr as [e|]; [by eexists|].
    destruct (add_fault w !! path) as [e|]; [by eexists|].
    generalize (register w path). 
    induction IH as [|t entries Ht _ IHentries]; intros w1; [done|].
    simpl in Hbad. simpl.
    pose proof (Ht (Join path (entry_name t)) w1) as Hhead.
    destruct (walk (Join path (entry_name t)) t w1) as [[e|] w2]; [by eexists|].
    apply andb_false_iff in Hbad as [Hbad|Hbad].
    + destruct (Hhead Hbad) as [? [=]].
    + by apply IHentries.
Qed.

Lemma walk_ok (t : FsTree) :
  ∀ path w,
    readable t = true →
    (∀ p, p ∈ dir_paths path t → add_fault w !! p = None) →
    (walk path t w).1 = None.
Proof.
  induction t as [n|n err|n readErr entries IH] using FsTree_nested_ind;
    intros path w Hgood Hfree.
  - done.
  - done.
  - simpl walk. rewrite walkFn_directory. simpl in Hgood, Hfree.
    destruct readErr as [e|]; [done|].
    rewrite (Hfree path) by apply list_elem_of_here.
    assert (∀ p, p ∈ flat_map (λ t', dir_paths (Join path (entry_name t')) t') entries →
                 add_fault (register w path) !! p = None) as Hfree1.
    { intros p Hp. apply Hfree. by apply list_elem_of_further. }
    clear Hfree. revert Hfree1. generalize (register w path).
    induction IH as [|t entries Ht _ IHentries]; intros w1 Hfree1; [done|].
    simpl in Hgood, Hfree1. simpl.
    apply andb_true_iff in Hgood as [Hgood1 Hgood2].
    pose proof (walk_add_fault t (Join path (entry_name t)) w1) as Hkeep.
    pose proof (Ht (Join path (entry_name t)) w1 Hgood1) as Hhead.
    destruct (walk (Join path (entry_name t)) t w1) as [[e|] w2]; simpl in *.
    + assert (Some e = None) as [=]. apply Hhead. intros p Hp. apply Hfree1.
      apply elem_of_app. by left.
    + apply IHentries; [done|]. intros p Hp. rewrite Hkeep. apply Hfree1.
      apply elem_of_app. by right.
Qed.

(** X18: the initial walk returns no error exactly when every entry of the
    tree can be examined, every directory can be read, and the watcher
    accepts every directory of the tree. *)
Theorem X18_walk_succeeds_iff (dir : string) (root : FsTree) (w : World) :
  (addWatchRecursive dir root w).1 = None
  ↔ readable root = true ∧ ∀ p, p ∈ dir_paths dir root → add_fault w !! p = None.
Proof.
  unfold addWatchRecursive. split.
  - intros Hnone. split.
    + destruct (readable root) eqn:Hr; [done|].
      destruct (walk_unreadable root dir w Hr) as [e He]. congruence.
    + intros p Hp. destruct (add_fault w !! p) as [e|] eqn:Hf; [|done].
      destruct (walk_refused root dir w p Hp) as [e' He']; [by eexists|]. congruence.
  - intros [Hr Hfree]. by apply walk_ok.
Qed.

(** X19: whether it fails or not, the initial walk has registered the
    directories of the tree in walk order up to some point, and nothing
    else: no file, and no directory twice; the file system is untouched;
    when the walk returns no error, every directory of the tree is in the
    watch set. *)
Theorem X19_walk_registers_directories_in_order
    (dir : string) (root : FsTree) (w : World) :
  let r := addWatchRecursive dir root w in
  ∃ k, (k ≤ length (dir_paths dir root))%nat
       ∧ registrations (trace r.2) = registrations (trace w) ++ take k (dir_paths dir root)
       ∧ watched r.2 = list_to_set (take k (dir_paths dir root)) ∪ watched w
       ∧ fs r.2 = fs w
       ∧ removals (trace r.2) = removals (trace w)
       ∧ (r.1 = None → k = length (dir_paths dir root)
                       ∧ watched r.2 = list_to_set (dir_paths dir root) ∪ watched w).
Proof.
  unfold addWatchRecursive. simpl.
  destruct (walk_prefix root dir w) as (k & Hle & Heq & Hall).
  destruct (register_all_facts (take k (dir_paths dir root)) w)
    as (Hfs & _ & Hw & Hreg & Hrm).
  exists k. rewrite Heq. repeat (split; [done|]).
  intros Hnone. specialize (Hall Hnone). subst k. split; [done|].
  by rewrite Hw, take_ge.
Qed.

(** ** More on start-up *)

(** X20: started with any number of arguments other than four, [main]
    prints the four usage lines and leaves with exit code 1 before it reads
    the allowlist or touches the watcher. *)
Theorem X20_wrong_argument_count_prints_usage
    (args : list string) (boot : Boot) (w : World) :
  length args ≠ 5%nat →
  ∃ w', main args boot w = Exited 1 w'
        ∧ trace w' = trace w ++ (Printed <$> usage)
        ∧ watched w' = watched w ∧ fs w' = fs w.
Proof.
  intros Hlen. unfold main.
  destruct args as [|a0 [|a1 [|a2 [|a3 [|a4 [|a5 args]]]]]]; try done;
    eexists; (split; [reflexivity|]); simpl; rewrite <- ?app_assoc; done.
Qed.

Lemma X20_witness :
  ∃ w', main ["birdeye"; "/w"] demo_boot demo = Exited 1 w'
        ∧ trace w' = trace demo ++ (Printed <$> usage)
        ∧ watched w' = watched demo ∧ fs w' = fs demo.
Proof.
  apply (X20_wrong_argument_count_prints_usage ["birdeye"; "/w"] demo_boot demo).
  simpl. lia.
Defined.

(** X21: when [main] gets as far as starting the dispatcher, it was given
    four arguments, the filter is the third argument cut at its commas, the
    allowlist is what the loader made of the file named by the fourth, and
    every directory of the tree below the first is in the watch set; nothing
    has been removed, and the file system has changed in one place at most:
    the log file named by the second argument, created when it could be
    opened and did not exist. *)
Theorem X21_monitoring_starts_fully_registered
    (args : list string) (boot : Boot) (w : World)
    (events : list string) (allowed : AllowedExtensions) (w' : World) :
  main args boot w = Monitoring events allowed w' →
  ∃ prog directory logFilePath eventsArg allowedExtFilePath,
    args = [prog; directory; logFilePath; eventsArg; allowedExtFilePath]
    ∧ events = Split eventsArg ","
    ∧ loadAllowedExtensions (allowlist_file boot allowedExtFilePath) = Ok allowed
    ∧ readable (target_tree boot directory) = true
    ∧ (∀ p, p ∈ dir_paths directory (target_tree boot directory) → p ∈ watched w')
    ∧ watched w ⊆ watched w'
    ∧ fs w' = match log_file_fault boot with
              | Some _ => fs w
              | None => fs (os_OpenFile_create logFilePath w)
              end
    ∧ removals (trace w') = removals (trace w).
Proof.
  unfold main. intros Hmain.
  destruct args as [|prog [|directory [|logFilePath [|eventsArg
                     [|allowedExtFilePath [|extra args]]]]]]; try done.
  exists prog, directory, logFilePath, eventsArg, allowedExtFilePath.
  set (w0 := match log_file_fault boot with Some _ => _ | None => _ end) in Hmain.
  assert (fs w0 = match log_file_fault boot with
                  | Some _ => fs w
                  | None => fs (os_OpenFile_create logFilePath w)
                  end
          ∧ watched w0 = watched w
          ∧ removals (trace w0) = removals (trace w)) as (Hfs0 & Hw0 & Hrm0).
  { unfold w0, os_OpenFile_create. destruct (log_file_fault boot); simpl; trace_simpl;
      [done|]. by destruct (fs w !! logFilePath). }
  destruct (loadAllowedExtensions _) as [allowed0|err] eqn:Hload; [|done].
  destruct (new_watcher_fault boot) as [err|]; [done|].
  pose proof (walk_unreadable (target_tree boot directory) directory w0) as Hunread.
  destruct (walk_prefix (target_tree boot directory) directory w0)
    as (k & _ & Heq & Hall).
  unfold addWatchRecursive in Hmain.
  destruct (walk directory (target_tree boot directory) w0) as [[err|] w1] eqn:Hwalk;
    [done|].
  injection Hmain as <- <- <-. simpl in Heq, Hall, Hunread.
  specialize (Hall eq_refl). subst k. rewrite take_ge in Heq by done. subst w1.
  destruct (register_all_facts (dir_paths directory (target_tree boot directory)) w0)
    as (Hfs & _ & Hw & _ & Hrm).
  split; [done|]. split; [done|]. split; [done|]. split.
  { destruct (readable (target_tree boot directory)); [done|].
    by destruct (Hunread eq_refl) as [? [=]]. }
  unfold Infof. simpl. trace_simpl. rewrite Hw, Hfs, Hrm, Hw0, Hfs0, Hrm0.
  split; [|split; [apply union_subseteq_r|done]].
  intros p Hp. apply elem_of_union_l. by apply elem_of_list_to_set.
Qed.

Lemma X21_witness :
  ∃ prog directory logFilePath eventsArg allowedExtFilePath,
    ["birdeye"; "/w"; "monitor.log"; "create,write"; "allowed.txt"]
    = [prog; directory; logFilePath; eventsArg; allowedExtFilePath]
    ∧ ["create"; "write"] = Split eventsArg ","
    ∧ loadAllowedExtensions (allowlist_file demo_boot allowedExtFilePath)
      = Ok {[ ".md"; ".txt" ]}
    ∧ readable (target_tree demo_boot directory) = true
    ∧ (∀ p, p ∈ dir_paths directory (target_tree demo_boot directory) →
            p ∈ watched (Infof "Starting to monitor directory: /w"
                           (register_all (os_OpenFile_create "monitor.log" demo) ["/w"; "/w/data"])))
    ∧ watched demo ⊆ watched (Infof "Starting to monitor directory: /w"
                                (register_all (os_OpenFile_create "monitor.log" demo) ["/w"; "/w/data"]))
    ∧ fs (Infof "Starting to monitor directory: /w" (register_all (os_OpenFile_create "monitor.log" demo) ["/w"; "/w/data"]))
      = match log_file_fault demo_boot with
        | Some _ => fs demo
        | None => fs (os_OpenFile_create logFilePath demo)
        end
    ∧ removals (trace (Infof "Starting to monitor directory: /w"
                         (register_all (os_OpenFile_create "monitor.log" demo) ["/w"; "/w/data"]))) = removals (trace demo).
Proof.
  apply (X21_monitoring_starts_fully_registered
           ["birdeye"; "/w"; "monitor.log"; "create,write"; "allowed.txt"] demo_boot demo).
  by vm_compute.
Defined.

(** ** The index-pair search *)

Lemma wrap64_mod (z : Z) : wrap64 z `mod` 2 ^ 64 = z `mod` 2 ^ 64.
Proof.
  unfold wrap64. rewrite Zminus_mod_idemp_l. f_equal. lia.
Qed.

Lemma wrap64_congr (a b : Z) : a `mod` 2 ^ 64 = b `mod` 2 ^ 64 → wrap64 a = wrap64 b.
Proof.
  intros Hab. unfold wrap64.
  rewrite <- (Zplus_mod_idemp_l a), <- (Zplus_mod_idemp_l b), Hab. done.
Qed.

Lemma wrap64_int (z : Z) : is_int z → wrap64 z = z.
Proof.
  unfold is_int, wrap64. intros Hz. rewrite Z.mod_small; lia.
Qed.

(** The complement the loop looks up is the number that adds up to the
    target in 64-bit arithmetic. *)
Lemma complement_sum (target x y : Z) :
  x = wrap64 (target - y) → wrap64 (x + y) = wrap64 target.
Proof.
  intros ->. apply wrap64_congr.
  rewrite <- Zplus_mod_idemp_l, wrap64_mod, Zplus_mod_idemp_l. f_equal. lia.
Qed.

Lemma sum_complement (target x y : Z) :
  is_int x → wrap64 (x + y) = wrap64 target → x = wrap64 (target - y).
Proof.
  intros Hx Hsum. rewrite <- (wrap64_int x Hx). apply wrap64_congr.
  apply (f_equal (λ z, z `mod` 2 ^ 64)) in Hsum. rewrite !wrap64_mod in Hsum.
  rewrite <- Zminus_mod_idemp_l, <- Hsum, Zminus_mod_idemp_l. f_equal. lia.
Qed.

Lemma map_of_empty : map_of [] ∅.
Proof. split; [by intros v k Hl|by intros k v Hl]. Qed.

Lemma map_of_insert (seen : list Z) (numMap : gmap Z nat) (num : Z) :
  map_of seen numMap → map_of (seen ++ [num]) (<[num := length seen]> numMap).
Proof.
  intros [Hsound Hfull]. split.
  - intros v k Hl. destruct (decide (num = v)) as [->|Hne].
    + rewrite lookup_insert_eq in Hl. injection Hl as <-.
      by apply list_lookup_middle.
    + rewrite lookup_insert_ne in Hl by done.
      apply lookup_app_l_Some. by apply Hsound.
  - intros k v [Hl|[_ Hl]]%lookup_app_Some.
    + destruct (decide (num = v)) as [->|Hne].
      * rewrite lookup_insert_eq. by eexists.
      * rewrite lookup_insert_ne by done. by apply (Hfull k).
    + destruct (k - length seen)%nat; [|done]. injection Hl as <-.
      rewrite lookup_insert_eq. by eexists.
Qed.

(** The loop, started at any point of the list: it returns the first
    position whose complement has been seen, with a position of that
    complement, or nothing when there is no such position. *)
Lemma twoSum_loop_spec (target : Z) (nums : list Z) :
  ∀ (seen : list Z) (numMap : gmap Z nat),
    map_of seen numMap →
    let candidate (a b : nat) :=
      (a < b)%nat ∧ (length seen ≤ b)%nat
      ∧ ∃ x y, (seen ++ nums) !! a = Some x ∧ (seen ++ nums) !! b = Some y
               ∧ x = wrap64 (target - y) in
    match twoSum_loop nums (length seen) target numMap with
    | [] => ∀ a b, ¬ candidate a b
    | [a; b] => candidate a b ∧ ∀ a' b', candidate a' b' → (b ≤ b')%nat
    | _ => False
    end.
Proof.
  induction nums as [|num rest IH]; intros seen numMap Hmap; simpl.
  - intros a b (_ & Hle & x & y & _ & Hb & _).
    rewrite app_nil_r in Hb. apply lookup_lt_Some in Hb. lia.
  - destruct (numMap !! wrap64 (target - num)) as [index|] eqn:Hl.
    + destruct Hmap as [Hsound _]. pose proof (Hsound _ _ Hl) as Hseen.
      pose proof (lookup_lt_Some _ _ _ Hseen) as Hlt. split.
      * split; [done|]. split; [done|]. exists (wrap64 (target - num)), num.
        split; [by apply lookup_app_l_Some|]. split; [by apply list_lookup_middle|done].
      * intros a' b' (_ & Hle & _). done.
    + pose proof (IH (seen ++ [num]) _ (map_of_insert seen numMap num Hmap)) as IH'.
      rewrite length_app, Nat.add_1_r, <- app_assoc in IH'. simpl in IH'.
      assert (∀ a b,
                (a < b)%nat ∧ (length seen ≤ b)%nat
                ∧ (∃ x y, (seen ++ num :: rest) !! a = Some x
                          ∧ (seen ++ num :: rest) !! b = Some y
                          ∧ x = wrap64 (target - y)) →
                (S (length seen) ≤ b)%nat) as Hlater.
      { intros a b (Hab & Hle & x & y & Ha & Hb & Hxy).
        destruct (decide (b = length seen)) as [->|]; [|lia]. exfalso.
        rewrite list_lookup_middle in Hb by done. injection Hb as <-.
        rewrite lookup_app_l in Ha by done.
        destruct Hmap as [_ Hfull]. destruct (Hfull _ _ Ha) as [k Hk]. congruence. }
      destruct (twoSum_loop rest (S (length seen)) target (<[num:=length seen]> numMap))
        as [|a [|b [|c l]]]; [|done| |done].
      * intros a b Hcand. apply (IH' a b).
        pose proof (Hlater a b Hcand). destruct Hcand as (? & _ & ?). done.
      * destruct IH' as [(Hab & Hle & Hxy) Hmin]. split.
        -- split; [done|]. split; [lia|done].
        -- intros a' b' Hcand. apply (Hmin a' b').
           pose proof (Hlater a' b' Hcand). destruct Hcand as (? & _ & ?). done.
Qed.

Lemma candidate_pair (nums : list Z) (target : Z) (a b : nat) :
  Forall is_int nums →
  is_pair nums target a b
  ↔ (a < b)%nat ∧ (0 ≤ b)%nat
    ∧ ∃ x y, nums !! a = Some x ∧ nums !! b = Some y ∧ x = wrap64 (target - y).
Proof.
  intros Hint. unfold is_pair. split.
  - intros (Hab & x & y & Ha & Hb & Hsum). split; [done|]. split; [lia|].
    exists x, y. split; [done|]. split; [done|]. apply sum_complement; [|done].
    rewrite Forall_forall in Hint. apply Hint. by eapply list_elem_of_lookup_2.
  - intros (Hab & _ & x & y & Ha & Hb & Hxy). split; [done|].
    exists x, y. split; [done|]. split; [done|]. by apply complement_sum.
Qed.

(** X22: when [twoSum] returns two indices, they are two different
    positions of the list, the first before the second, and the numbers
    there add up to the target in 64-bit arithmetic. *)
Theorem X22_twoSum_sound (nums : list Z) (target : Z) (a b : nat) :
  twoSum nums target = [a; b] →
  (a < b < length nums)%nat
  ∧ ∃ x y, nums !! a = Some x ∧ nums !! b = Some y ∧ wrap64 (x + y) = wrap64 target.
Proof.
  intros Hres. pose proof (twoSum_loop_spec target nums [] ∅ map_of_empty) as Hspec.
  unfold twoSum in Hres. simpl in Hspec. rewrite Hres in Hspec.
  destruct Hspec as [(Hab & _ & x & y & Ha & Hb & Hxy) _].
  split; [split; [done|by eapply lookup_lt_Some]|].
  exists x, y. split; [done|]. split; [done|]. by apply complement_sum.
Qed.

Lemma X22_witness :
  (0 < 1 < length [2; 7; 11; 15])%nat
  ∧ ∃ x y, [2; 7; 11; 15] !! 0%nat = Some x ∧ [2; 7; 11; 15] !! 1%nat = Some y
           ∧ wrap64 (x + y) = wrap64 9.
Proof. apply (X22_twoSum_sound [2; 7; 11; 15] 9 0 1). reflexivity. Defined.

(** X23: on a list of 64-bit integers, [twoSum] returns the empty slice
    exactly when no two positions hold numbers that add up to the target;
    otherwise it returns two indices. *)
Theorem X23_twoSum_complete (nums : list Z) (target : Z) :
  Forall is_int nums →
  (twoSum nums target = [] ↔ ∀ a b, ¬ is_pair nums target a b)
  ∧ (twoSum nums target = [] ∨ ∃ a b, twoSum nums target = [a; b]).
Proof.
  intros Hint. pose proof (twoSum_loop_spec target nums [] ∅ map_of_empty) as Hspec.
  unfold twoSum. simpl in Hspec.
  destruct (twoSum_loop nums 0 target ∅) as [|a [|b [|c l]]]; [|done| |done].
  - split; [|by left]. split; [|done]. intros _ a b Hpair.
    apply (Hspec a b). by apply candidate_pair.
  - split; [|right; by exists a, b]. split; [done|]. intros Hnone. exfalso.
    destruct Hspec as [Hcand _]. apply (Hnone a b). by apply candidate_pair.
Qed.

Lemma X23_witness :
  (twoSum [1; 2; 3] 100 = [] ↔ ∀ a b, ¬ is_pair [1; 2; 3] 100 a b)
  ∧ (twoSum [1; 2; 3] 100 = [] ∨ ∃ a b, twoSum [1; 2; 3] 100 = [a; b]).
Proof.
  apply (X23_twoSum_complete [1; 2; 3] 100).
  repeat constructor; done.
Defined.

(** X24: among all pairs of positions that add up to the target, [twoSum]
    returns one whose second position is the smallest possible. *)
Theorem X24_twoSum_first_match (nums : list Z) (target : Z) (a b a' b' : nat) :
  Forall is_int nums →
  twoSum nums target = [a; b] →
  is_pair nums target a' b' →
  (b ≤ b')%nat.
Proof.
  intros Hint Hres Hpair.
  pose proof (twoSum_loop_spec target nums [] ∅ map_of_empty) as Hspec.
  unfold twoSum in Hres. simpl in Hspec. rewrite Hres in Hspec.
  destruct Hspec as [_ Hmin]. apply (Hmin a' b'). by apply candidate_pair.
Qed.

Lemma X24_witness : (2 ≤ 3)%nat.
Proof.
  apply (X24_twoSum_first_match [3; 9; 6; 0; 5] 9 0 2 1 3).
  - repeat constructor; done.
  - reflexivity.
  - split; [lia|]. exists 9, 0. repeat split; reflexivity.
Defined.

(** ** The v2 variant *)

Lemma V2_handle_watched (event : V2.Event) (s : V2Main.State) :
  V2Main.add_fault (V2Main.handle event s) = V2Main.add_fault s
  ∧ (V2Main.watched (V2Main.handle event s) = V2Main.watched s
     ∨ (V2.op event = V2.Create ∧ V2.IsDir event = true
        ∧ V2Main.add_fault s !! V2.Path event = None
        ∧ V2Main.watched (V2Main.handle event s)
          = {[ V2.Path event ]} ∪ V2Main.watched s)).
Proof.
  unfold V2Main.handle, V2Main.watchDirectory, V2Main.AddRecursive, V2Main.say.
  destruct (V2.op event) eqn:Hop; simpl; try (split; [done|by left]).
  destruct (V2.IsDir event) eqn:Hdir; simpl; [|split; [done|by left]].
  destruct (V2Main.add_fault s !! V2.Path event) eqn:Hf; simpl;
    [split; [done|by left]|].
  split; [done|]. right. done.
Qed.

(** X25: in the v2 variant, handling an event never takes a path out of
    the watch set, and whatever the set holds after a feed was in it before
    or is the path of a Create event of the feed whose target is a
    directory: removals, renames, moves, writes and errors add nothing (the
    polling of the watcher can only drop paths). *)
Theorem X25_v2_watch_set_gains_created_directories_only :
  (∀ (event : V2.Event) (s : V2Main.State),
     V2Main.watched s ⊆ V2Main.watched (V2Main.handle event s))
  ∧ (∀ (feed : list V2Main.Recv) (s : V2Main.State) (p : string),
       p ∈ V2Main.watched (V2Main.serve feed s).2 →
       p ∈ V2Main.watched s
       ∨ ∃ event, V2Main.FromEvent event ∈ feed ∧ V2.op event = V2.Create
                  ∧ V2.IsDir event = true ∧ V2.Path event = p).
Proof.
  split.
  { intros event s.
    destruct (V2_handle_watched event s) as [_ [->|(_ & _ & _ & ->)]];
      [done|apply union_subseteq_r]. }
  intros feed. induction feed as [|item feed IH]; intros s p Hp; simpl in Hp.
  { by left. }
  destruct item as [event|err| |gone].
  - destruct (IH _ _ Hp) as [Hin|(ev & Hin & ?)].
    + destruct (V2_handle_watched event s) as [_ [Heq|(Hop & Hdir & _ & Heq)]];
        rewrite Heq in Hin; [by left|].
      apply elem_of_union in Hin as [->%elem_of_singleton|?]; [|by left].
      right. exists event. split; [apply list_elem_of_here|done].
    + right. exists ev. split; [by apply list_elem_of_further|done].
  - destruct (IH _ _ Hp) as [Hin|(ev & Hin & ?)]; [by left|].
    right. exists ev. split; [by apply list_elem_of_further|done].
  - by left.
  - destruct (IH _ _ Hp) as [Hin|(ev & Hin & ?)].
    + left. simpl in Hin. by apply elem_of_difference in Hin as [? _].
    + right. exists ev. split; [by apply list_elem_of_further|done].
Qed.

(** X26: the v2 [main] panics exactly when [os.Stat] fails with an error
    other than "does not exist": it then calls [IsDir] on the nil
    [FileInfo] instead of reporting the error. *)
Theorem X26_v2_main_panics_on_other_stat_errors
    (dirPath : string) (boot : V2Main.Boot) (s : V2Main.State) :
  (∃ s', V2Main.main dirPath boot s = V2Main.Panic s')
  ↔ ∃ e, V2Main.stat boot = Err e ∧ V2Main.os_IsNotExist (Some e) = false.
Proof.
  unfold V2Main.main. split.
  - intros [s' Hmain]. destruct (V2Main.stat boot) as [mode|e] eqn:Hstat.
    + simpl in Hmain. destruct mode; [done|].
      destruct (V2Main.abs boot); [|done].
      destruct (V2Main.watchDirectory a s) as [[?|] ?]; [done|].
      by destruct (V2Main.start_fault boot).
    + exists e. split; [done|]. by destruct (V2Main.os_IsNotExist (Some e)).
  - intros (e & -> & ->). by exists s.
Qed.

(** X27: when the v2 [main] gets as far as polling, the path given exists
    and is a directory, its absolute form was announced on the console and
    is in the watch set. *)
Theorem X27_v2_main_polls_a_watched_directory
    (dirPath absPath : string) (boot : V2Main.Boot) (s s' : V2Main.State) :
  V2Main.main dirPath boot s = V2Main.Polling absPath s' →
  V2Main.stat boot = Ok Directory
  ∧ V2Main.abs boot = Ok absPath
  ∧ absPath ∈ V2Main.watched s'
  ∧ V2Main.out s' = V2Main.out s ++ [V2Main.Stdout ("Watching directory: " +:+ absPath)].
Proof.
  unfold V2Main.main, V2Main.watchDirectory, V2Main.AddRecursive, V2Main.say.
  destruct (V2Main.stat boot) as [[|]|e];
    [simpl; intros [=]|simpl|destruct (V2Main.os_IsNotExist (Some e)); intros [=]].
  destruct (V2Main.abs boot) as [absPath0|e]; [|intros [=]]. simpl.
  destruct (V2Main.add_fault s !! absPath0); [intros [=]|].
  destruct (V2Main.start_fault boot); [intros [=]|].
  intros [= <- <-]. simpl. split; [done|]. split; [done|]. split; [|done].
  apply elem_of_union_l. by apply elem_of_singleton.
Qed.

Lemma X27_witness :
  let s := V2Main.mkState ∅ ∅ [] in
  let s' := V2Main.mkState ∅ {[ "/home/u/w" ]}
              [V2Main.Stdout "Watching directory: /home/u/w"] in
  V2Main.stat (V2Main.mkBoot (Ok Directory) (Ok "/home/u/w") None) = Ok Directory
  ∧ V2Main.abs (V2Main.mkBoot (Ok Directory) (Ok "/home/u/w") None) = Ok "/home/u/w"
  ∧ "/home/u/w" ∈ V2Main.watched s'
  ∧ V2Main.out s' = V2Main.out s ++ [V2Main.Stdout ("Watching directory: " +:+ "/home/u/w")].
Proof.
  apply (X27_v2_main_polls_a_watched_directory "w" "/home/u/w"
           (V2Main.mkBoot (Ok Directory) (Ok "/home/u/w") None)
           (V2Main.mkState ∅ ∅ [])).
  by vm_compute.
Defined.

(** ** Extensions and directories *)

Lemma get_append_r (pre s : string) (i : nat) :
  String.get (String.length pre + i) (pre +:+ s) = String.get i s.
Proof. induction pre as [|c pre IH]; [done|]. exact IH. Qed.

Lemma substring_append_r (pre s : string) (i n : nat) :
  String.substring (String.length pre + i) n (pre +:+ s) = String.substring i n s.
Proof. induction pre as [|c pre IH]; [done|]. exact IH. Qed.

Lemma length_append (a b : string) :
  String.length (a +:+ b) = (String.length a + String.length b)%nat.
Proof. induction a as [|c a IH]; [done|]. simpl. by rewrite <- IH. Qed.

(** Scanning backwards from inside the last element gives the same answer
    with and without the directory in front, because the scan stops at the
    separator. *)
Lemma Ext_loop_Join (dir base : string) (i : nat) :
  Ext_loop (Join dir base) (String.length (dir +:+ "/") + i) = Ext_loop base i.
Proof.
  assert (Join dir base = (dir +:+ "/") +:+ base) as ->.
  { unfold Join. by rewrite append_assoc. }
  induction i as [|i IH].
  - rewrite Nat.add_0_r, length_append, Nat.add_1_r. simpl.
    replace (String.get (String.length dir) ((dir +:+ "/") +:+ base))
      with (String.get 0 ("/" +:+ base)); [done|].
    rewrite append_assoc, <- (get_append_r dir), Nat.add_0_r. done.
  - rewrite Nat.add_succ_r. simpl. rewrite get_append_r.
    destruct (String.get i base) as [c|]; [|done].
    destruct (IsPathSeparator c); [done|]. destruct (is_dot c); [|exact IH].
    rewrite (length_append (dir +:+ "/") base).
    replace (String.length (dir +:+ "/") + String.length base
             - (String.length (dir +:+ "/") + i))%nat
      with (String.length base - i)%nat by lia.
    apply substring_append_r.
Qed.

(** X28: the verdict on a file depends on its last path element only: the
    extension of [dir/base] is the extension of [base], so dots in the names
    of the directories above a file never count. *)
Theorem X28_verdict_ignores_the_directory
    (dir base : string) (allowed : AllowedExtensions) :
  Ext (Join dir base) = Ext base
  ∧ isAllowedExtension (Join dir base) allowed = isAllowedExtension base allowed.
Proof.
  assert (Ext (Join dir base) = Ext base) as Hext.
  { unfold Ext. rewrite <- (Ext_loop_Join dir base). f_equal.
    unfold Join. by rewrite <- append_assoc, length_append. }
  split; [done|]. unfold isAllowedExtension. by rewrite Hext.
Qed.

(** X29: a Create event whose name passes the membership test costs at
    most a log line and a registration: the file system is left as it was,
    nothing is removed and nobody is notified, whatever the filter. *)
Theorem X29_allowed_file_is_left_alone
    (events : list string) (allowed : AllowedExtensions) (event : Event) (w : World) :
  isAllowedExtension (Name event) allowed = true →
  let w' := handleEvent events allowed event w in
  fs w' = fs w
  ∧ removals (trace w') = removals (trace w)
  ∧ notifications (trace w') = notifications (trace w).
Proof. apply logAndEnforce_allowed. Qed.

Lemma X29_witness :
  let w' := handleEvent ["create"] {[ ".txt" ]} (mkEvent "/w/a.txt" Create) demo in
  fs w' = fs demo
  ∧ removals (trace w') = removals (trace demo)
  ∧ notifications (trace w') = notifications (trace demo).
Proof.
  apply (X29_allowed_file_is_left_alone ["create"] {[ ".txt" ]}
           (mkEvent "/w/a.txt" Create) demo).
  by vm_compute.
Defined.

(** X30: along a feed the dispatcher writes exactly one info line per
    event the filter matches, in the order of delivery, and none for the
    other events, the errors and the outside changes. *)
Theorem X30_one_info_line_per_matched_event
    (events : list string) (allowed : AllowedExtensions) (feed : list Recv) (w : World) :
  (∀ r, r ∈ feed → r ≠ EventsClosed ∧ r ≠ ErrorsClosed) →
  logs_at InfoLevel (trace (processEvents events allowed feed w).2)
  = logs_at InfoLevel (trace w)
    ++ ((λ event, "Event: " +:+ Op_String (Op event) +:+ " on file: " +:+ Name event)
          <$> filter (λ event, containsEvent events event = true) (feed_events feed)).
Proof.
  revert w. induction feed as [|item feed IH]; intros w Hopen.
  { simpl. by rewrite app_nil_r. }
  assert (∀ r, r ∈ feed → r ≠ EventsClosed ∧ r ≠ ErrorsClosed) as Hopen'.
  { intros r Hr. apply Hopen. by apply list_elem_of_further. }
  destruct item as [event| |err| |fs' rf af nf]; simpl.
  - rewrite IH, handleEvent_info by done. rewrite filter_cons.
    destruct (containsEvent events event) eqn:Hc.
    + rewrite decide_True by done. by rewrite fmap_cons, <- app_assoc.
    + rewrite decide_False by congruence. by rewrite app_nil_r.
  - by destruct (Hopen EventsClosed (list_elem_of_here _ _)) as [? _].
  - rewrite IH by done. unfold Errorf. simpl. by trace_simpl.
  - by destruct (Hopen ErrorsClosed (list_elem_of_here _ _)) as [_ ?].
  - by rewrite IH.
Qed.

Lemma X30_witness :
  logs_at InfoLevel
    (trace (processEvents ["write"] {[ ".txt" ]}
              [FromEvents (mkEvent "/w/a.txt" Create);
               FromEvents (mkEvent "/w/a.txt" Write)] demo).2)
  = logs_at InfoLevel (trace demo)
    ++ ((λ event, "Event: " +:+ Op_String (Op event) +:+ " on file: " +:+ Name event)
          <$> filter (λ event, containsEvent ["write"] event = true)
                (feed_events [FromEvents (mkEvent "/w/a.txt" Create);
                              FromEvents (mkEvent "/w/a.txt" Write)])).
Proof.
  apply (X30_one_info_line_per_matched_event ["write"] {[ ".txt" ]}
           [FromEvents (mkEvent "/w/a.txt" Create);
            FromEvents (mkEvent "/w/a.txt" Write)] demo).
  intros r. rewrite !elem_of_cons, elem_of_nil. intros [->|[->|[]]]; done.
Defined.
